(** * The chat server of [chatServer.py]: connection pool and connection handler

    A shallow embedding of [ConnectionPool] and [handle_connection], and the
    properties of the protocol they implement.

    - Python [str] values are sequences of Unicode code points ([list N]).
      The UTF-8 [decode] and [encode] are left out: a line read is the text
      its bytes decode to, what is written is the text before its encoding,
      and bytes that do not decode are a read that raised.
    - A [StreamWriter] object is known by its identity ([Writer]); the class
      defines neither [__eq__] nor [__hash__], so [==], [!=] and membership
      in [connection_pool] all compare identities.
    - [connection_pool] is a Python [set]: a [gset Writer].  A [set] iterates
      in an order fixed by its members' hashes, not by the order in which they
      were added; here the order is that of [elements].
    - The methods run in a state-and-exception monad over [World]; the state
      reached when an exception is raised is kept, as in Python.
    - [handle_connection] is a coroutine: it is cut at its [await]s into
      segments that run without interruption, and [step] resumes one handler
      with the outcome of the operation it awaits. *)

From stdpp Require Import gmap list strings pretty.

(** ** Python strings *)

Abbreviation str := (list N).

(** A literal without escapes. *)
Definition py (s : string) : str :=
  (λ a, Ascii.N_of_ascii a) <$> String.list_ascii_of_string s.

Definition LF : N := 10%N.
Definition CR : N := 13%N.
Definition SP : N := 32%N.
Definition TAB : N := 9%N.

(** [str.isspace] on one code point, the characters [str.strip()] removes. *)
Definition isspace (c : N) : bool :=
  bool_decide (c ∈ [9; 10; 11; 12; 13; 28; 29; 30; 31; 32; 133; 160; 5760;
                    8232; 8233; 8239; 8287; 12288]%N)
  || ((8192 <=? c)%N && (c <=? 8202)%N).

Fixpoint lstrip (s : str) : str :=
  match s with
  | c :: s' => if isspace c then lstrip s' else s
  | [] => []
  end.

Definition rstrip (s : str) : str := reverse (lstrip (reverse s)).

(** [s.strip()] *)
Definition strip (s : str) : str := rstrip (lstrip s).

(** [str(n)] for an [int]. *)
Definition str_of_int (n : Z) : str := py (pretty n).

(** *** [textwrap.dedent]

    As in CPython up to 3.13: lines are delimited by ["\n"] only; a line made
    of spaces and tabs alone becomes empty; the margin is the longest common
    prefix of the space-and-tab indents of the remaining non-empty lines; it
    is removed from every line that starts with it. *)

Fixpoint split_lines_aux (cur : str) (s : str) : list str :=
  match s with
  | [] => [reverse cur]
  | c :: s' =>
      if decide (c = LF) then reverse cur :: split_lines_aux [] s'
      else split_lines_aux (c :: cur) s'
  end.

Definition split_lines (s : str) : list str := split_lines_aux [] s.

Fixpoint join_lines (ls : list str) : str :=
  match ls with
  | [] => []
  | [l] => l
  | l :: ls' => l ++ LF :: join_lines ls'
  end.

Definition isblank (c : N) : bool := bool_decide (c = SP ∨ c = TAB).

Definition whitespace_only (l : str) : bool := forallb isblank l.

Fixpoint indent_of (l : str) : str :=
  match l with
  | c :: l' => if isblank c then c :: indent_of l' else []
  | [] => []
  end.

Fixpoint common_prefix (a b : str) : str :=
  match a, b with
  | x :: a', y :: b' => if decide (x = y) then x :: common_prefix a' b' else []
  | _, _ => []
  end.

Definition margin_of (ls : list str) : option str :=
  foldl (λ margin l,
           match margin with
           | None => Some (indent_of l)
           | Some m => Some (common_prefix m (indent_of l))
           end) None ls.

Fixpoint strip_prefix (m l : str) : option str :=
  match m, l with
  | [], _ => Some l
  | x :: m', y :: l' => if decide (x = y) then strip_prefix m' l' else None
  | _ :: _, [] => None
  end.

Definition dedent_lines (ls : list str) : list str :=
  let ls := (λ l, if whitespace_only l then [] else l) <$> ls in
  let m := default [] (margin_of (filter (λ l, l ≠ []) ls)) in
  (λ l, default l (strip_prefix m l)) <$> ls.

Definition dedent (text : str) : str :=
  join_lines (dedent_lines (split_lines text)).

(** ** The world: writers, their attributes and what was written to them *)

(** A [StreamWriter] object, by identity. *)
Abbreviation Writer := nat.

Inductive exn :=
  | KeyError              (* [set.remove] of a non-member *)
  | AttributeError        (* [writer.nickname] read before it was set *)
  | WriteError            (* raised by [StreamWriter.write] *)
  | IncompleteReadError   (* [readuntil]: end of stream before the separator *)
  | OtherError.           (* any other exception raised by an awaited call *)

(** Where a handler is suspended. *)
Inductive pc :=
  | AwaitNickname         (* first [await reader.readuntil] *)
  | AwaitLine             (* [await reader.readuntil] in the loop *)
  | AwaitDrain            (* [await writer.drain()] *)
  | AwaitClosed           (* [await writer.wait_closed()] *)
  | Finished              (* [handle_connection] returned *)
  | Crashed (e : exn).    (* [handle_connection] ended with an exception *)

Record World := mkWorld {
  connection_pool : gset Writer;       (* [ConnectionPool.connection_pool] *)
  nickname : gmap Writer str;          (* the [nickname] attribute of writers *)
  written : gmap Writer (list str);    (* arguments of [write], oldest first *)
  closing : gset Writer;               (* writers for which [is_closing()] *)
  broken : gset Writer;                (* writers whose [write] raises *)
  handlers : gmap Writer pc            (* the running [handle_connection]s *)
}.

Global Instance exn_eq_dec : EqDecision exn.
Proof. solve_decision. Defined.
Global Instance pc_eq_dec : EqDecision pc.
Proof. solve_decision. Defined.

Definition init : World :=
  {| connection_pool := ∅; nickname := ∅; written := ∅; closing := ∅;
     broken := ∅; handlers := ∅ |}.

(** Everything written to [w] so far. *)
Definition outbox (σ : World) (w : Writer) : list str :=
  default [] (written σ !! w).

(** ** State and exceptions *)

Inductive result (A : Type) :=
  | Return (a : A)
  | Raise (e : exn).
Arguments Return {A} a.
Arguments Raise {A} e.

Definition M (A : Type) : Type := World → result A * World.

Definition ret {A} (a : A) : M A := λ σ, (Return a, σ).
Definition raise {A} (e : exn) : M A := λ σ, (Raise e, σ).
Definition bind {A B} (m : M A) (k : A → M B) : M B :=
  λ σ, match m σ with
       | (Return a, σ') => k a σ'
       | (Raise e, σ') => (Raise e, σ')
       end.

Global Instance M_ret : MRet M := @ret.
Global Instance M_bind : MBind M := λ A B k m, bind m k.

(** [for x in xs: body x] *)
Fixpoint for_each {A} (xs : list A) (body : A → M unit) : M unit :=
  match xs with
  | [] => ret tt
  | x :: xs' => body x ;; for_each xs' body
  end.

(** [for x in xs: acc = body acc x] *)
Fixpoint for_fold {A B} (xs : list A) (acc : B) (body : B → A → M B) : M B :=
  match xs with
  | [] => ret acc
  | x :: xs' => acc' ← body acc x; for_fold xs' acc' body
  end.

(** *** Operations on writers *)

(** [writer.write(data)], [data] before its encoding. *)
Definition write (w : Writer) (data : str) : M unit :=
  λ σ, if decide (w ∈ broken σ) then (Raise WriteError, σ)
       else (Return tt,
             {| connection_pool := connection_pool σ; nickname := nickname σ;
                written := <[w := outbox σ w ++ [data]]> (written σ);
                closing := closing σ; broken := broken σ;
                handlers := handlers σ |}).

(** [writer.nickname] *)
Definition get_nickname (w : Writer) : M str :=
  λ σ, match nickname σ !! w with
       | Some n => (Return n, σ)
       | None => (Raise AttributeError, σ)
       end.

(** [writer.nickname = n] *)
Definition set_nickname (w : Writer) (n : str) : M unit :=
  λ σ, (Return tt,
        {| connection_pool := connection_pool σ;
           nickname := <[w := n]> (nickname σ);
           written := written σ; closing := closing σ; broken := broken σ;
           handlers := handlers σ |}).

(** [writer.close()] *)
Definition close (w : Writer) : M unit :=
  λ σ, (Return tt,
        {| connection_pool := connection_pool σ; nickname := nickname σ;
           written := written σ; closing := {[w]} ∪ closing σ;
           broken := broken σ; handlers := handlers σ |}).

(** [writer.is_closing()] *)
Definition is_closing (w : Writer) : M bool :=
  λ σ, (Return (bool_decide (w ∈ closing σ)), σ).

(** ** [ConnectionPool] *)

Definition get_pool : M (gset Writer) := λ σ, (Return (connection_pool σ), σ).

Definition set_pool (p : gset Writer) : M unit :=
  λ σ, (Return tt,
        {| connection_pool := p; nickname := nickname σ;
           written := written σ; closing := closing σ; broken := broken σ;
           handlers := handlers σ |}).

(** The text between the triple quotes in [send_welcome_message], with the
    nickname and the count filled in. *)
Definition welcome_text (nick : str) (count : Z) : str :=
  [LF] ++
  py "        " ++ [CR] ++ py "=== " ++ [LF] ++
  py "        " ++ [CR] ++ py "Welcome " ++ nick ++ py "!" ++ [LF] ++
  py "        " ++ [CR] ++ [LF] ++
  py "        " ++ [CR] ++ py "There are " ++ str_of_int count
                        ++ py " user(s) here beside you" ++ [LF] ++
  py "        " ++ [CR] ++ py "            " ++ [LF] ++
  py "        " ++ [CR] ++ py "Help: " ++ [LF] ++
  py "         " ++ [CR] ++ py "- Type anything to chat" ++ [LF] ++
  py "         " ++ [CR] ++ py "- /list will list all the connected users" ++ [LF] ++
  py "         " ++ [CR] ++ py "- /quit will disconnect you" ++ [LF] ++
  py "        " ++ [CR] ++ py "===" ++ [LF] ++
  py "        ".

(** What [send_welcome_message] writes for a given nickname and count. *)
Definition welcome_message (nick : str) (count : Z) : str :=
  dedent (welcome_text nick count) ++ [LF; CR].

Definition send_welcome_message (writer : Writer) : M unit :=
  nick ← get_nickname writer;
  pool ← get_pool;
  write writer (welcome_message nick (Z.of_nat (size pool) - 1)).

Definition broadcast (writer : Writer) (message : str) : M unit :=
  pool ← get_pool;
  for_each (elements pool) (λ user,
    if decide (user ≠ writer) then write user (message ++ [LF; CR])
    else ret tt).

Definition broadcast_user_join (writer : Writer) : M unit :=
  nick ← get_nickname writer;
  broadcast writer (nick ++ py " just joined").

Definition broadcast_user_quit (writer : Writer) : M unit :=
  nick ← get_nickname writer;
  broadcast writer (nick ++ py " just quit").

Definition broadcast_new_message (writer : Writer) (message : str) : M unit :=
  nick ← get_nickname writer;
  broadcast writer (py "[" ++ nick ++ py "]: " ++ message).

Definition list_users (writer : Writer) : M unit :=
  let message := py "===" ++ [LF; CR] in
  let message := message ++ py "Currently connected users:" in
  pool ← get_pool;
  message ← for_fold (elements pool) message (λ message user,
    nick ← get_nickname user;
    let message := message ++ [LF; CR] ++ py " - " ++ nick in
    ret (if decide (user = writer) then message ++ py " (you)" else message));
  let message := message ++ [LF; CR] ++ py "===" in
  write writer (message ++ [LF; CR]).

Definition add_new_user_to_pool (writer : Writer) : M unit :=
  pool ← get_pool;
  set_pool (pool ∪ {[writer]}).

Definition remove_user_from_pool (writer : Writer) : M unit :=
  pool ← get_pool;
  if decide (writer ∈ pool) then set_pool (pool ∖ {[writer]})
  else raise KeyError.

(** ** [handle_connection] *)

(** What [await reader.readuntil(b"\n")] gives inside the [try]: the decoded
    data, or [IncompleteReadError]. *)
Inductive read_result :=
  | Data (text : str)
  | Incomplete.

(** How an iteration of [while True] ends. *)
Inductive control :=
  | Drain      (* falls through to [await writer.drain()] *)
  | Break.     (* [break] *)

(** Up to the first [await]: the prompt. *)
Definition prompt (writer : Writer) : M unit :=
  write writer (py "> Choose your nickname: ").

(** From the nickname line to the loop. *)
Definition handshake (writer : Writer) (response : str) : M unit :=
  set_nickname writer (strip response) ;;
  add_new_user_to_pool writer ;;
  send_welcome_message writer ;;
  broadcast_user_join writer.

(** The loop body, from the result of [readuntil] to [drain] or [break]. *)
Definition on_read (writer : Writer) (r : read_result) : M control :=
  match r with
  | Incomplete => broadcast_user_quit writer ;; ret Break
  | Data data =>
      let message := strip data in
      if decide (message = py "/quit") then
        broadcast_user_quit writer ;; ret Break
      else if decide (message = py "/list") then
        list_users writer ;; ret Drain
      else
        broadcast_new_message writer message ;; ret Drain
  end.

(** After the loop: [writer.close()], then [await writer.wait_closed()]. *)
Definition leave (writer : Writer) : M pc :=
  close writer ;; ret AwaitClosed.

(** After [drain]: [if writer.is_closing(): break]. *)
Definition after_drain (writer : Writer) : M pc :=
  c ← is_closing writer;
  if c : bool then leave writer else ret AwaitLine.

(** After [wait_closed]: the last statement. *)
Definition after_closed (writer : Writer) : M pc :=
  remove_user_from_pool writer ;; ret Finished.

(** ** Resuming a handler *)

(** The outcome of the call a handler awaits. *)
Inductive outcome :=
  | Line (text : str)   (* [readuntil] returned data that decodes to [text] *)
  | IncompleteRead      (* [readuntil] raised [IncompleteReadError] *)
  | Failed              (* the call, or [decode], raised something else *)
  | Resumed.            (* [drain] or [wait_closed] returned *)

(** The segment that runs when a handler suspended at [p] is resumed with
    [o]; [None] when [o] is not an outcome of the call awaited at [p]. *)
Definition segment (writer : Writer) (p : pc) (o : outcome) : option (M pc) :=
  match p, o with
  | AwaitNickname, Line text => Some (handshake writer text ;; ret AwaitLine)
  | AwaitNickname, IncompleteRead => Some (raise IncompleteReadError)
  | AwaitLine, Line text =>
      Some (c ← on_read writer (Data text);
            match c with Break => leave writer | Drain => ret AwaitDrain end)
  | AwaitLine, IncompleteRead =>
      Some (c ← on_read writer Incomplete;
            match c with Break => leave writer | Drain => ret AwaitDrain end)
  | AwaitDrain, Resumed => Some (after_drain writer)
  | AwaitClosed, Resumed => Some (after_closed writer)
  | AwaitNickname, Failed | AwaitLine, Failed
  | AwaitDrain, Failed | AwaitClosed, Failed => Some (raise OtherError)
  | _, _ => None
  end.

Definition set_pc (w : Writer) (p : pc) (σ : World) : World :=
  {| connection_pool := connection_pool σ; nickname := nickname σ;
     written := written σ; closing := closing σ; broken := broken σ;
     handlers := <[w := p]> (handlers σ) |}.

(** Run a segment of [w]'s handler; an exception ends the handler. *)
Definition run (w : Writer) (m : M pc) (σ : World) : World :=
  match m σ with
  | (Return p, σ') => set_pc w p σ'
  | (Raise e, σ') => set_pc w (Crashed e) σ'
  end.

(** Resume the handler of [w] with [o]. *)
Definition step (σ : World) (w : Writer) (o : outcome) : option World :=
  p ← handlers σ !! w;
  m ← segment w p o;
  Some (run w m σ).

(** ** The server *)

Inductive action :=
  | Accept (w : Writer)               (* a connection: [handle_connection] starts *)
  | Deliver (w : Writer) (o : outcome)   (* the call [w]'s handler awaits ends *)
  | Lost (w : Writer)                 (* the transport of [w] starts closing *)
  | Fault (w : Writer).               (* from now on [w.write] raises *)

Definition act (σ : World) (a : action) : option World :=
  match a with
  | Accept w =>
      match handlers σ !! w with
      | Some _ => None      (* every connection has a writer of its own *)
      | None => Some (run w (prompt w ;; ret AwaitNickname) σ)
      end
  | Deliver w o => step σ w o
  | Lost w => Some ((close w σ).2)
  | Fault w =>
      Some {| connection_pool := connection_pool σ; nickname := nickname σ;
              written := written σ; closing := closing σ;
              broken := {[w]} ∪ broken σ; handlers := handlers σ |}
  end.

Fixpoint exec (σ : World) (acts : list action) : option World :=
  match acts with
  | [] => Some σ
  | a :: acts' => σ' ← act σ a; exec σ' acts'
  end.

(** A client connects and sends its nickname line. *)
Definition connect (c : Writer * str) : list action :=
  [Accept c.1; Deliver c.1 (Line c.2)].

(** * Vocabulary of the statements *)

(** ** Chunks and messages *)

(** The chunk that carries [message], as [broadcast] builds it. *)
Definition chunk (message : str) : str := message ++ [LF; CR].

(** The three messages that are broadcast. *)
Definition chat_message (nick message : str) : str :=
  py "[" ++ nick ++ py "]: " ++ message.

Definition quit_message (nick : str) : str := nick ++ py " just quit".

Definition join_message (nick : str) : str := nick ++ py " just joined".

(** The prompt written when a connection is accepted. *)
Definition prompt_text : str := py "> Choose your nickname: ".

(** The line of member [u] in a listing made for [w]. *)
Definition entry (σ : World) (w u : Writer) : str :=
  [LF; CR] ++ py " - " ++ default [] (nickname σ !! u)
  ++ (if decide (u = w) then py " (you)" else []).

(** The listing for [w] with the members in the order [us]. *)
Definition listing_of (σ : World) (w : Writer) (us : list Writer) : str :=
  py "===" ++ [LF; CR] ++ py "Currently connected users:"
  ++ concat (entry σ w <$> us) ++ [LF; CR] ++ py "===" ++ [LF; CR].

(** The lines of [welcome_text], [count] being the count as text. *)
Definition welcome_lines (nick : str) (count : str) : list str :=
  [ [];
    py "        " ++ [CR] ++ py "=== ";
    py "        " ++ [CR] ++ py "Welcome " ++ nick ++ py "!";
    py "        " ++ [CR];
    py "        " ++ [CR] ++ py "There are " ++ count
                          ++ py " user(s) here beside you";
    py "        " ++ [CR] ++ py "            ";
    py "        " ++ [CR] ++ py "Help: ";
    py "         " ++ [CR] ++ py "- Type anything to chat";
    py "         " ++ [CR] ++ py "- /list will list all the connected users";
    py "         " ++ [CR] ++ py "- /quit will disconnect you";
    py "        " ++ [CR] ++ py "===";
    py "        " ].

(** The same lines once dedented. *)
Definition shown_lines (nick : str) (count : str) : list str :=
  [ [];
    [CR] ++ py "=== ";
    [CR] ++ py "Welcome " ++ nick ++ py "!";
    [CR];
    [CR] ++ py "There are " ++ count ++ py " user(s) here beside you";
    [CR] ++ py "            ";
    [CR] ++ py "Help: ";
    py " " ++ [CR] ++ py "- Type anything to chat";
    py " " ++ [CR] ++ py "- /list will list all the connected users";
    py " " ++ [CR] ++ py "- /quit will disconnect you";
    [CR] ++ py "===";
    [] ].

(** The welcome as the client receives it: the block is dedented by the
    eight spaces that start each line, and the count stands in its line. *)
Definition welcome_shown (nick : str) (count : Z) : str :=
  [LF; CR] ++ py "=== " ++
  [LF; CR] ++ py "Welcome " ++ nick ++ py "!" ++
  [LF; CR] ++
  [LF; CR] ++ py "There are " ++ str_of_int count ++ py " user(s) here beside you" ++
  [LF; CR] ++ py "            " ++
  [LF; CR] ++ py "Help: " ++
  [LF] ++ py " " ++ [CR] ++ py "- Type anything to chat" ++
  [LF] ++ py " " ++ [CR] ++ py "- /list will list all the connected users" ++
  [LF] ++ py " " ++ [CR] ++ py "- /quit will disconnect you" ++
  [LF; CR] ++ py "===" ++
  [LF] ++
  [LF; CR].

(** ** Loop bodies *)

(** The body of the loop of [broadcast]. *)
Definition send_unless (sender : Writer) (data : str) (user : Writer) : M unit :=
  if decide (user ≠ sender) then write user data else ret tt.

(** The body of the loop of [list_users]. *)
Definition list_line (writer : Writer) (message : str) (user : Writer) : M str :=
  nick ← get_nickname user;
  let message := message ++ [LF; CR] ++ py " - " ++ nick in
  ret (if decide (user = writer) then message ++ py " (you)" else message).

(** ** Worlds *)

(** The world after [data] was written to each of [us] in turn. *)
Definition deliver (us : list Writer) (data : str) (σ : World) : World :=
  foldl (λ σ u, (write u data σ).2) σ us.
Global Arguments deliver : simpl never.

(** The members [broadcast] writes to, in the order it reaches them. *)
Definition recipients (σ : World) (sender : Writer) : list Writer :=
  filter (λ u, u ≠ sender) (elements (connection_pool σ)).

(** The world once the nickname is set and the writer added. *)
Definition registered (σ : World) (w : Writer) (nick : str) : World :=
  (set_pool (connection_pool σ ∪ {[w]}) (set_nickname w nick σ).2).2.

(** ... and once the welcome is written. *)
Definition welcomed (σ : World) (w : Writer) (nick : str) : World :=
  deliver [w]
    (welcome_message nick
       (Z.of_nat (size (connection_pool σ ∪ {[w]})) - 1))
    (registered σ w nick).

(** The world after the handshake of [w], when no [write] raises. *)
Definition joined (σ : World) (w : Writer) (nick : str) : World :=
  set_pc w AwaitLine
    (deliver (recipients (welcomed σ w nick) w) (chunk (join_message nick))
       (welcomed σ w nick)).

(** The world after the handler of [w] announced that [nick] quit and closed
    its writer. *)
Definition quit_world (σ : World) (w : Writer) (nick : str) : World :=
  set_pc w AwaitClosed
    (close w (deliver (recipients σ w) (chunk (quit_message nick)) σ)).2.

(** ** Predicates on worlds *)

(** Every member has its [nickname] attribute. *)
Definition named (σ : World) : Prop :=
  ∀ u, u ∈ connection_pool σ → is_Some (nickname σ !! u).

(** No member other than [w] has a writer whose [write] raises. *)
Definition others_sound (σ : World) (w : Writer) : Prop :=
  ∀ u, u ∈ connection_pool σ → u ≠ w → u ∉ broken σ.

(** The server can reach [σ]. *)
Definition reachable (σ : World) : Prop := ∃ acts, exec init acts = Some σ.

(** [σ'] differs from [σ] at most in what was written. *)
Definition only_written (σ σ' : World) : Prop :=
  connection_pool σ' = connection_pool σ
  ∧ nickname σ' = nickname σ
  ∧ closing σ' = closing σ
  ∧ broken σ' = broken σ
  ∧ handlers σ' = handlers σ.

(** [m] changes nothing but what was written. *)
Definition writes_only {A} (m : M A) : Prop :=
  ∀ σ, only_written σ (m σ).2.

(** No member was added and no nickname changed. *)
Definition no_new_member (σ σ' : World) : Prop :=
  connection_pool σ' ⊆ connection_pool σ ∧ nickname σ' = nickname σ.

(** ** Runs *)

(** Clients that connect one after the other. *)
Definition connects (cs : list (Writer * str)) : list action :=
  concat (connect <$> cs).

(** The join announcements for the clients [cs]. *)
Definition announcements (cs : list (Writer * str)) : list str :=
  (λ c, chunk (join_message (strip c.2))) <$> cs.

(** The world a fresh server reaches by [acts]. *)
Definition world_of (acts : list action) : World := default init (exec init acts).

(** Nickname lines as [readuntil] returns them. *)
Definition bob_line : str := py "bob" ++ [LF].
Definition alice_line : str := py " alice" ++ [CR; LF].
Definition carol_line : str := py "carol" ++ [LF].

(** bob (writer 1) connects, then alice (writer 2). *)
Definition two_clients : list action :=
  connect (1, bob_line) ++ connect (2, alice_line).

(** ... then carol (writer 3). *)
Definition three_clients : list action :=
  two_clients ++ connect (3, carol_line).

(** bob, alice and carol are registered and alice's writer is faulty. *)
Definition alice_faulty : World := world_of (three_clients ++ [Fault 2]).

(** The same with carol's writer faulty instead. *)
Definition carol_faulty : World := world_of (three_clients ++ [Fault 3]).

(** ** Handlers and the registry *)

(** The states in which [handle_connection] is over. *)
Definition over (p : pc) : Prop := p = Finished ∨ ∃ e, p = Crashed e.

(** The registry agrees with the handlers: a writer is a member while its
    handler is in the loop or waits for [wait_closed], and is none before the
    handshake and after the removal.  A handler that ended with an exception
    leaves its writer where it was. *)
Definition coherent (σ : World) : Prop :=
  ∀ w, match handlers σ !! w with
       | Some AwaitLine | Some AwaitDrain | Some AwaitClosed =>
           w ∈ connection_pool σ
       | Some (Crashed _) => True
       | Some AwaitNickname | Some Finished | None =>
           w ∉ connection_pool σ
       end.

(** No handler ended with [KeyError] or [AttributeError]. *)
Definition no_internal_error (σ : World) : Prop :=
  ∀ w e, handlers σ !! w = Some (Crashed e) →
         e ≠ KeyError ∧ e ≠ AttributeError.

(** [r] is a normal return or the exception of a [write]. *)
Definition ok_or_write_error {A} (r : result A) : Prop :=
  (∃ a, r = Return a) ∨ r = Raise WriteError.

(** [σ'] differs from [σ] at most in what was written and in what concerns
    [w]: its nickname, its membership, whether it is closing. *)
Definition touches_only (w : Writer) (σ σ' : World) : Prop :=
  handlers σ' = handlers σ
  ∧ broken σ' = broken σ
  ∧ (∀ v, v ≠ w → nickname σ' !! v = nickname σ !! v)
  ∧ (∀ v, v ≠ w → v ∈ connection_pool σ' ↔ v ∈ connection_pool σ).

(** A segment of the handler of [w] ended on [r] in the world [σ'] as the
    registry expects: in a state that agrees with the membership of [w], or
    with an exception other than [KeyError] and [AttributeError]. *)
Definition ends_well (w : Writer) (r : result pc) (σ' : World) : Prop :=
  match r with
  | Return AwaitLine | Return AwaitDrain | Return AwaitClosed =>
      w ∈ connection_pool σ'
  | Return AwaitNickname | Return Finished => w ∉ connection_pool σ'
  | Return (Crashed _) => False
  | Raise e => e ≠ KeyError ∧ e ≠ AttributeError
  end.

(** bob and alice are registered, then alice quits and her handler
    returns. *)
Definition alice_gone : World :=
  world_of (two_clients
            ++ [Deliver 2 (Line (py "/quit" ++ [LF])); Deliver 2 Resumed]).

(** * Properties *)

(** ** The monad *)

Lemma bind_eq {A B} (m : M A) (k : A → M B) σ :
  (m ≫= k) σ = match m σ with
               | (Return a, σ') => k a σ'
               | (Raise e, σ') => (Raise e, σ')
               end.
Proof. reflexivity. Qed.

Lemma bind_return {A B} (m : M A) (k : A → M B) σ a σ' :
  m σ = (Return a, σ') → (m ≫= k) σ = k a σ'.
Proof. intros H. rewrite bind_eq, H. reflexivity. Qed.

Lemma bind_raise {A B} (m : M A) (k : A → M B) σ e σ' :
  m σ = (Raise e, σ') → (m ≫= k) σ = (Raise e, σ').
Proof. intros H. rewrite bind_eq, H. reflexivity. Qed.

(** ** Writing *)

Lemma write_ok u data σ :
  u ∉ broken σ → write u data σ = (Return tt, deliver [u] data σ).
Proof. intros H. unfold deliver, write. simpl. rewrite !decide_False by done. done. Qed.

Lemma write_broken u data σ :
  u ∈ broken σ → write u data σ = (Raise WriteError, σ).
Proof. intros H. unfold write. rewrite decide_True by done. done. Qed.

Lemma deliver_cons u us data σ :
  deliver (u :: us) data σ = deliver us data (deliver [u] data σ).
Proof. reflexivity. Qed.

Lemma deliver_app us vs data σ :
  deliver (us ++ vs) data σ = deliver vs data (deliver us data σ).
Proof. unfold deliver. apply foldl_app. Qed.

Lemma deliver_fields us data σ :
  connection_pool (deliver us data σ) = connection_pool σ
  ∧ nickname (deliver us data σ) = nickname σ
  ∧ closing (deliver us data σ) = closing σ
  ∧ broken (deliver us data σ) = broken σ
  ∧ handlers (deliver us data σ) = handlers σ.
Proof.
  revert σ. induction us as [|u us IH]; intros σ; [done|].
  rewrite deliver_cons.
  destruct (IH (deliver [u] data σ)) as (-> & -> & -> & -> & ->).
  unfold deliver, write. simpl. by case_decide.
Qed.

Lemma deliver_pool us data σ :
  connection_pool (deliver us data σ) = connection_pool σ.
Proof. apply deliver_fields. Qed.
Lemma deliver_nickname us data σ : nickname (deliver us data σ) = nickname σ.
Proof. apply deliver_fields. Qed.
Lemma deliver_closing us data σ : closing (deliver us data σ) = closing σ.
Proof. apply deliver_fields. Qed.
Lemma deliver_broken us data σ : broken (deliver us data σ) = broken σ.
Proof. apply deliver_fields. Qed.
Lemma deliver_handlers us data σ : handlers (deliver us data σ) = handlers σ.
Proof. apply deliver_fields. Qed.

Lemma outbox_deliver_one u data σ v :
  u ∉ broken σ →
  outbox (deliver [u] data σ) v
  = if decide (v = u) then outbox σ u ++ [data] else outbox σ v.
Proof.
  intros H. unfold deliver, write, outbox. simpl. rewrite decide_False by done.
  simpl. case_decide as Hv.
  - subst. by rewrite lookup_insert_eq.
  - by rewrite lookup_insert_ne.
Qed.

(** Each writer of a duplicate-free [us] gets [data] once, appended to what
    it had, and no other writer gets anything. *)
Lemma outbox_deliver us data σ v :
  NoDup us → (∀ u, u ∈ us → u ∉ broken σ) →
  outbox (deliver us data σ) v
  = outbox σ v ++ (if decide (v ∈ us) then [data] else []).
Proof.
  revert σ. induction us as [|u us IH]; intros σ Hnd Hok.
  - change (deliver [] data σ) with σ.
    rewrite decide_False by apply not_elem_of_nil. by rewrite app_nil_r.
  - apply NoDup_cons in Hnd as [Hu Hnd].
    rewrite deliver_cons, IH; [|done|].
    2:{ intros x Hx. rewrite deliver_broken. apply Hok. by right. }
    rewrite outbox_deliver_one by (apply Hok; left).
    destruct (decide (v = u)) as [->|Hne].
    + rewrite decide_False by done. rewrite decide_True by left.
      by rewrite app_nil_r.
    + destruct (decide (v ∈ us)).
      * by rewrite decide_True by (by right).
      * rewrite decide_False; [done|]. by intros [?|?]%elem_of_cons.
Qed.

(** ** [broadcast] *)

Lemma recipients_NoDup σ w : NoDup (recipients σ w).
Proof. apply NoDup_filter, NoDup_elements. Qed.

Lemma elem_of_recipients σ w u :
  u ∈ recipients σ w ↔ u ∈ connection_pool σ ∧ u ≠ w.
Proof.
  unfold recipients. rewrite list_elem_of_filter, elem_of_elements. tauto.
Qed.

Lemma broadcast_eq w message σ :
  broadcast w message σ
  = for_each (elements (connection_pool σ)) (send_unless w (message ++ [LF; CR])) σ.
Proof. reflexivity. Qed.

Lemma send_unless_other w data u σ :
  u ≠ w → u ∉ broken σ →
  send_unless w data u σ = (Return tt, deliver [u] data σ).
Proof.
  intros Hne Hok. unfold send_unless. rewrite decide_True by done.
  by apply write_ok.
Qed.

Lemma send_unless_broken w data u σ :
  u ≠ w → u ∈ broken σ → send_unless w data u σ = (Raise WriteError, σ).
Proof.
  intros Hne Hbr. unfold send_unless. rewrite decide_True by done.
  by apply write_broken.
Qed.

Lemma send_unless_sender w data σ : send_unless w data w σ = (Return tt, σ).
Proof. unfold send_unless. rewrite decide_False; [done|]. by intros []. Qed.

Lemma for_each_cons {A} (x : A) xs body :
  for_each (x :: xs) body = (body x ;; for_each xs body).
Proof. reflexivity. Qed.

(** The loop over members that can all be written to. *)
Lemma for_each_send_ok w data us σ :
  (∀ u, u ∈ us → u ≠ w → u ∉ broken σ) →
  for_each us (send_unless w data) σ
  = (Return tt, deliver (filter (λ u, u ≠ w) us) data σ).
Proof.
  revert σ. induction us as [|u us IH]; intros σ Hok; [done|].
  rewrite for_each_cons.
  destruct (decide (u = w)) as [->|Hne].
  - rewrite filter_cons_False by (by intros []).
    erewrite bind_return; [|apply send_unless_sender]. apply IH.
    intros x Hx Hxw. apply Hok; [by right|done].
  - rewrite filter_cons_True by done.
    erewrite bind_return; [|apply send_unless_other; [done|apply Hok; [left|done]]].
    rewrite IH, <-deliver_cons; [done|].
    intros x Hx Hxw. rewrite deliver_broken. apply Hok; [by right|done].
Qed.

(** The loop when the first member whose [write] raises is [b]: the
    exception leaves the loop, and the members after [b] are not reached. *)
Lemma for_each_send_raise w data us b vs σ :
  (∀ u, u ∈ us → u ≠ w → u ∉ broken σ) → b ≠ w → b ∈ broken σ →
  for_each (us ++ b :: vs) (send_unless w data) σ
  = (Raise WriteError, deliver (filter (λ u, u ≠ w) us) data σ).
Proof.
  revert σ. induction us as [|u us IH]; intros σ Hok Hb Hbr.
  - change ([] ++ b :: vs) with (b :: vs). rewrite for_each_cons.
    erewrite bind_raise; [|by apply send_unless_broken]. done.
  - change ((u :: us) ++ b :: vs) with (u :: (us ++ b :: vs)).
    rewrite for_each_cons.
    destruct (decide (u = w)) as [->|Hne].
    + rewrite filter_cons_False by (by intros []).
      erewrite bind_return; [|apply send_unless_sender]. apply IH; [|done..].
      intros x Hx Hxw. apply Hok; [by right|done].
    + rewrite filter_cons_True by done.
      erewrite bind_return; [|apply send_unless_other; [done|apply Hok; [left|done]]].
      rewrite IH, <-deliver_cons; [done| |done|by rewrite deliver_broken].
      intros x Hx Hxw. rewrite deliver_broken. apply Hok; [by right|done].
Qed.

Lemma broadcast_ok w message σ :
  (∀ u, u ∈ connection_pool σ → u ≠ w → u ∉ broken σ) →
  broadcast w message σ
  = (Return tt, deliver (recipients σ w) (message ++ [LF; CR]) σ).
Proof.
  intros Hok. rewrite broadcast_eq. apply for_each_send_ok.
  intros u Hu. apply Hok. by apply elem_of_elements.
Qed.

(** Whatever the writes do, [broadcast] writes nothing to the sender. *)
Lemma for_each_send_sender w data us σ :
  outbox (for_each us (send_unless w data) σ).2 w = outbox σ w.
Proof.
  revert σ. induction us as [|u us IH]; intros σ; [done|].
  rewrite for_each_cons, bind_eq.
  destruct (decide (u = w)) as [->|Hne].
  { rewrite send_unless_sender. apply IH. }
  destruct (decide (u ∈ broken σ)) as [Hbr|Hok].
  { by rewrite send_unless_broken. }
  rewrite send_unless_other, IH, outbox_deliver_one by done.
  by rewrite decide_False by done.
Qed.

Lemma broadcast_sender w message σ :
  outbox (broadcast w message σ).2 w = outbox σ w.
Proof. rewrite broadcast_eq. apply for_each_send_sender. Qed.

Lemma announce_sender w (message_of : str → str) σ :
  outbox ((nick ← get_nickname w; broadcast w (message_of nick)) σ).2 w
  = outbox σ w.
Proof.
  rewrite bind_eq. unfold get_nickname.
  destruct (nickname σ !! w) as [nick|]; [|done]. apply broadcast_sender.
Qed.

(** ** Adding and removing members *)

Lemma add_new_user_to_pool_eq w σ :
  add_new_user_to_pool w σ = (Return tt, (set_pool (connection_pool σ ∪ {[w]}) σ).2).
Proof. reflexivity. Qed.

Lemma set_pool_same σ p : p = connection_pool σ → (set_pool p σ).2 = σ.
Proof. intros ->. by destruct σ. Qed.

(** ** C9: adding a member again *)

(** C9, as stated, fails: with bob and alice registered, adding bob's writer
    again returns normally and changes nothing; no error is signalled. *)
Lemma add_duplicate_returns :
  1 ∈ connection_pool (world_of two_clients)
  ∧ add_new_user_to_pool 1 (world_of two_clients)
    = (Return tt, world_of two_clients).
Proof. split; vm_compute; reflexivity. Qed.

(** C9, amended: [add_new_user_to_pool] of a writer that is already a member
    returns normally and leaves the world, and so the registry, as it was. *)
Theorem add_member_noop (σ : World) (w : Writer) :
  w ∈ connection_pool σ →
  add_new_user_to_pool w σ = (Return tt, σ).
Proof.
  intros Hin. rewrite add_new_user_to_pool_eq. f_equal.
  apply set_pool_same. rewrite (comm_L (∪)).
  by apply subseteq_union_1_L, singleton_subseteq_l.
Qed.

Lemma add_member_noop_witness :
  add_new_user_to_pool 2 (world_of two_clients)
  = (Return tt, world_of two_clients).
Proof. apply add_member_noop. vm_compute. reflexivity. Defined.

(** [add_new_user_to_pool] never raises, and the pool gains exactly [w]. *)
Lemma add_new_user_to_pool_pool w σ :
  ∃ σ', add_new_user_to_pool w σ = (Return tt, σ')
        ∧ connection_pool σ' = connection_pool σ ∪ {[w]}.
Proof. eexists. split; [apply add_new_user_to_pool_eq|done]. Qed.

(** ** C7: removing a non-member *)

(** C7, as stated, fails: removing a writer from the empty registry raises
    [KeyError]. *)
Lemma remove_absent_raises :
  (1 ∉ connection_pool init)
  ∧ remove_user_from_pool 1 init = (Raise KeyError, init).
Proof. split; [apply not_elem_of_empty|reflexivity]. Qed.

(** C7, amended: [remove_user_from_pool] of a writer that is not a member
    raises [KeyError] and leaves the world unchanged. *)
Theorem remove_absent_KeyError (σ : World) (w : Writer) :
  w ∉ connection_pool σ →
  remove_user_from_pool w σ = (Raise KeyError, σ).
Proof.
  intros Hout. unfold remove_user_from_pool.
  erewrite bind_return; [|reflexivity]. by rewrite decide_False.
Qed.

Lemma remove_absent_KeyError_witness :
  remove_user_from_pool 3 (world_of two_clients)
  = (Raise KeyError, world_of two_clients).
Proof. apply remove_absent_KeyError. vm_compute. intros H. discriminate H. Defined.

(** Removing a member returns normally and takes exactly that member out. *)
Lemma remove_member w σ :
  w ∈ connection_pool σ →
  remove_user_from_pool w σ
  = (Return tt, (set_pool (connection_pool σ ∖ {[w]}) σ).2).
Proof.
  intros Hin. unfold remove_user_from_pool.
  erewrite bind_return; [|reflexivity]. by rewrite decide_True.
Qed.

(** In the handler a second removal ends it with [KeyError]: the writer of a
    finished handler is no longer a member. *)
Example remove_twice :
  let σ := world_of (two_clients ++ [Deliver 2 IncompleteRead; Deliver 2 Resumed]) in
  handlers σ !! 2 = Some Finished
  ∧ (after_closed 2 σ).1 = Raise KeyError.
Proof. split; vm_compute; reflexivity. Qed.

(** ** C8: a [write] that raises inside [broadcast] *)

(** C8, as stated, fails: the members are visited in the order alice, carol,
    bob.  When bob broadcasts, the write to alice raises, [broadcast] ends
    with that exception, and carol, whose writer is sound, gets nothing. *)
Lemma broadcast_aborted :
  elements (connection_pool alice_faulty) = [2; 3; 1]
  ∧ (3 ∉ broken alice_faulty)
  ∧ broadcast 1 (py "hi") alice_faulty = (Raise WriteError, alice_faulty).
Proof. split_and!; vm_compute; (reflexivity || (intros H; discriminate H)). Qed.

(** C8, amended: when the first recipient whose [write] raises is [b], the
    exception leaves [broadcast]; the recipients visited before [b] have been
    written to, and [b] and every member after it have not. *)
Theorem broadcast_write_raises (σ : World) (w : Writer) (message : str)
    (us vs : list Writer) (b : Writer) :
  elements (connection_pool σ) = us ++ b :: vs →
  (∀ u, u ∈ us → u ≠ w → u ∉ broken σ) →
  b ≠ w → b ∈ broken σ →
  ∃ σ', broadcast w message σ = (Raise WriteError, σ')
    ∧ (∀ u, u ∈ us → u ≠ w →
         outbox σ' u = outbox σ u ++ [message ++ [LF; CR]])
    ∧ (∀ v, v ∈ b :: vs → outbox σ' v = outbox σ v)
    ∧ outbox σ' w = outbox σ w.
Proof.
  intros Hel Hok Hb Hbr.
  assert (NoDup (us ++ b :: vs)) as Hnd by (rewrite <-Hel; apply NoDup_elements).
  apply NoDup_app in Hnd as (Hus & Hdisj & _).
  exists (deliver (filter (λ u, u ≠ w) us) (message ++ [LF; CR]) σ).
  assert (∀ v, outbox (deliver (filter (λ u, u ≠ w) us) (message ++ [LF; CR]) σ) v
             = outbox σ v ++ (if decide (v ∈ filter (λ u, u ≠ w) us)
                              then [message ++ [LF; CR]] else [])) as Hout.
  { intros v. apply outbox_deliver; [by apply NoDup_filter|].
    intros u [Hne Hu]%list_elem_of_filter. by apply Hok. }
  split_and!.
  - rewrite broadcast_eq, Hel. by apply for_each_send_raise.
  - intros u Hu Hne. rewrite Hout, decide_True; [done|].
    by apply list_elem_of_filter.
  - intros v Hv. rewrite Hout, decide_False; [by rewrite app_nil_r|].
    intros [_ Hvu]%list_elem_of_filter. by apply (Hdisj v).
  - rewrite Hout, decide_False; [by rewrite app_nil_r|].
    by intros [Hne _]%list_elem_of_filter.
Qed.

Lemma broadcast_write_raises_witness :
  ∃ σ', broadcast 1 (py "hi") carol_faulty = (Raise WriteError, σ')
    ∧ (∀ u, u ∈ [2] → u ≠ 1 →
         outbox σ' u = outbox carol_faulty u ++ [py "hi" ++ [LF; CR]])
    ∧ (∀ v, v ∈ [3; 1] → outbox σ' v = outbox carol_faulty v)
    ∧ outbox σ' 1 = outbox carol_faulty 1.
Proof.
  apply (broadcast_write_raises carol_faulty 1 (py "hi") [2] [1] 3).
  - vm_compute. reflexivity.
  - intros u Hu _. apply list_elem_of_singleton in Hu as ->.
    vm_compute. intros H. discriminate H.
  - lia.
  - vm_compute. reflexivity.
Defined.

(** ** Resuming a handler: general facts *)

Lemma step_eq σ w p o m :
  handlers σ !! w = Some p → segment w p o = Some m →
  step σ w o = Some (run w m σ).
Proof. intros Hp Hm. unfold step. rewrite Hp. simpl. rewrite Hm. done. Qed.

Lemma run_return w (m : M pc) σ p σ' :
  m σ = (Return p, σ') → run w m σ = set_pc w p σ'.
Proof. intros H. unfold run. by rewrite H. Qed.

Lemma run_raise w (m : M pc) σ e σ' :
  m σ = (Raise e, σ') → run w m σ = set_pc w (Crashed e) σ'.
Proof. intros H. unfold run. by rewrite H. Qed.

Lemma outbox_set_pc w p σ u : outbox (set_pc w p σ) u = outbox σ u.
Proof. reflexivity. Qed.

Lemma get_nickname_some w σ nick :
  nickname σ !! w = Some nick → get_nickname w σ = (Return nick, σ).
Proof. intros H. unfold get_nickname. by rewrite H. Qed.

Lemma others_sound_empty σ w : broken σ = ∅ → others_sound σ w.
Proof. intros H u _ _. rewrite H. apply not_elem_of_empty. Qed.

Lemma broadcast_new_message_ok w message σ nick :
  nickname σ !! w = Some nick → others_sound σ w →
  broadcast_new_message w message σ
  = (Return tt, deliver (recipients σ w) (chunk (chat_message nick message)) σ).
Proof.
  intros Hn Hok. unfold broadcast_new_message.
  erewrite bind_return; [|by apply get_nickname_some].
  by apply broadcast_ok.
Qed.

Lemma broadcast_user_quit_ok w σ nick :
  nickname σ !! w = Some nick → others_sound σ w →
  broadcast_user_quit w σ
  = (Return tt, deliver (recipients σ w) (chunk (quit_message nick)) σ).
Proof.
  intros Hn Hok. unfold broadcast_user_quit.
  erewrite bind_return; [|by apply get_nickname_some].
  by apply broadcast_ok.
Qed.

Lemma broadcast_user_join_ok w σ nick :
  nickname σ !! w = Some nick → others_sound σ w →
  broadcast_user_join w σ
  = (Return tt, deliver (recipients σ w) (chunk (join_message nick)) σ).
Proof.
  intros Hn Hok. unfold broadcast_user_join.
  erewrite bind_return; [|by apply get_nickname_some].
  by apply broadcast_ok.
Qed.

(** What a broadcast that reaches everyone does to the outboxes. *)
Lemma outbox_broadcast σ w data u :
  others_sound σ w →
  outbox (deliver (recipients σ w) data σ) u
  = outbox σ u ++ (if decide (u ∈ connection_pool σ ∧ u ≠ w) then [data] else []).
Proof.
  intros Hok. rewrite outbox_deliver.
  - destruct (decide (u ∈ recipients σ w)) as [Hu|Hu];
      rewrite elem_of_recipients in Hu.
    + by rewrite decide_True.
    + by rewrite decide_False.
  - apply recipients_NoDup.
  - intros v [Hv Hne]%elem_of_recipients. by apply Hok.
Qed.

(** ** The loop body on a line *)

Lemma on_read_chat w text σ nick :
  nickname σ !! w = Some nick → others_sound σ w →
  strip text ≠ py "/quit" → strip text ≠ py "/list" →
  on_read w (Data text) σ
  = (Return Drain,
     deliver (recipients σ w) (chunk (chat_message nick (strip text))) σ).
Proof.
  intros Hn Hok Hq Hl. unfold on_read. rewrite !decide_False by done.
  rewrite bind_eq, (broadcast_new_message_ok _ _ _ nick) by done. done.
Qed.

Lemma step_chat σ w text nick :
  handlers σ !! w = Some AwaitLine →
  nickname σ !! w = Some nick → others_sound σ w →
  strip text ≠ py "/quit" → strip text ≠ py "/list" →
  step σ w (Line text)
  = Some (set_pc w AwaitDrain
            (deliver (recipients σ w) (chunk (chat_message nick (strip text))) σ)).
Proof.
  intros Hpc Hn Hok Hq Hl.
  erewrite step_eq; [|done|reflexivity]. f_equal. apply run_return.
  rewrite bind_eq, (on_read_chat _ _ _ nick) by done. done.
Qed.

Lemma broadcast_new_message_sender w message σ :
  outbox (broadcast_new_message w message σ).2 w = outbox σ w.
Proof.
  apply (announce_sender w (λ nick, py "[" ++ nick ++ py "]: " ++ message)).
Qed.

(** ** C1: a chat line reaches every other member, and not its sender *)

(** C1: when the handler of [a] reads a line that is neither [/quit] nor
    [/list] once stripped, nothing is written to [a]; and, the writes to the
    others not raising, every member other than [a] is written the chat
    message once and nobody outside the registry is written anything.
    Members are told apart by identity, whatever their nicknames. *)
Theorem chat_reaches_all_others (σ : World) (a : Writer) (text nick : str) :
  handlers σ !! a = Some AwaitLine →
  nickname σ !! a = Some nick →
  strip text ≠ py "/quit" → strip text ≠ py "/list" →
  ∃ σ', step σ a (Line text) = Some σ'
    ∧ outbox σ' a = outbox σ a
    ∧ (others_sound σ a →
       connection_pool σ' = connection_pool σ
       ∧ (∀ u, u ∈ connection_pool σ → u ≠ a →
            outbox σ' u
            = outbox σ u ++ [chunk (chat_message nick (strip text))])
       ∧ (∀ u, u ∉ connection_pool σ → outbox σ' u = outbox σ u)).
Proof.
  intros Hpc Hn Hq Hl.
  eexists. split; [by erewrite step_eq|]. split.
  - unfold run. rewrite bind_eq. unfold on_read.
    rewrite !decide_False by done. rewrite bind_eq.
    pose proof (broadcast_new_message_sender a (strip text) σ) as Hs.
    by destruct (broadcast_new_message a (strip text) σ) as [[[]|e] σ'].
  - intros Hok.
    assert (run a (c ← on_read a (Data text);
                   match c with Break => leave a | Drain => ret AwaitDrain end) σ
            = set_pc a AwaitDrain
                (deliver (recipients σ a)
                   (chunk (chat_message nick (strip text))) σ)) as ->.
    { apply run_return.
      rewrite bind_eq, (on_read_chat _ _ _ nick) by done. done. }
    split_and!.
    + simpl. apply deliver_pool.
    + intros u Hu Hne. rewrite outbox_set_pc, outbox_broadcast by done.
      by rewrite decide_True.
    + intros u Hu. rewrite outbox_set_pc, outbox_broadcast by done.
      rewrite decide_False; [by rewrite app_nil_r|]. by intros [? _].
Qed.

Lemma chat_reaches_all_others_witness :
  ∃ σ', step (world_of two_clients) 2 (Line (py "hi" ++ [LF])) = Some σ'
    ∧ outbox σ' 2 = outbox (world_of two_clients) 2
    ∧ (others_sound (world_of two_clients) 2 →
       connection_pool σ' = connection_pool (world_of two_clients)
       ∧ (∀ u, u ∈ connection_pool (world_of two_clients) → u ≠ 2 →
            outbox σ' u
            = outbox (world_of two_clients) u
              ++ [chunk (chat_message (py "alice") (strip (py "hi" ++ [LF])))])
       ∧ (∀ u, u ∉ connection_pool (world_of two_clients) →
            outbox σ' u = outbox (world_of two_clients) u)).
Proof.
  apply (chat_reaches_all_others (world_of two_clients) 2 (py "hi" ++ [LF]) (py "alice")).
  - vm_compute. reflexivity.
  - vm_compute. reflexivity.
  - vm_compute. intros H. discriminate H.
  - vm_compute. intros H. discriminate H.
Defined.

(** In the world of bob and alice no [write] raises. *)
Lemma two_clients_sound w : others_sound (world_of two_clients) w.
Proof. apply others_sound_empty. vm_compute. reflexivity. Qed.

(** Two clients that chose the same nickname are still two members: what one
    says reaches the other and is not echoed. *)
Example same_nickname :
  let σ := world_of (connect (1, bob_line) ++ connect (2, bob_line)
                     ++ [Deliver 2 (Line (py "hi" ++ [LF]))]) in
  last (outbox σ 1) = Some (py "[bob]: hi" ++ [LF; CR])
  ∧ length (outbox σ 1) = 4
  ∧ length (outbox σ 2) = 2.
Proof. split_and!; vm_compute; reflexivity. Qed.

(** ** C4: the listing *)

Lemma list_line_eq w message u σ nick :
  nickname σ !! u = Some nick →
  list_line w message u σ = (Return (message ++ entry σ w u), σ).
Proof.
  intros Hn. unfold list_line, entry.
  rewrite bind_eq, (get_nickname_some _ _ nick), Hn by done. simpl default.
  case_decide; [|by rewrite app_nil_r].
  unfold ret. do 2 f_equal. by rewrite <-!app_assoc.
Qed.

Lemma for_fold_list w us message σ :
  (∀ u, u ∈ us → is_Some (nickname σ !! u)) →
  for_fold us message (list_line w) σ
  = (Return (message ++ concat (entry σ w <$> us)), σ).
Proof.
  revert message. induction us as [|u us IH]; intros message Hn.
  - simpl. by rewrite app_nil_r.
  - destruct (Hn u) as [nick Hnick]; [left|].
    change (for_fold (u :: us) message (list_line w))
      with (acc ← list_line w message u; for_fold us acc (list_line w)).
    rewrite bind_eq, (list_line_eq _ _ _ _ nick) by done.
    rewrite IH by (intros x Hx; apply Hn; by right).
    rewrite fmap_cons. simpl concat. by rewrite <-app_assoc.
Qed.

Lemma list_users_eq w σ :
  list_users w σ
  = (message ← for_fold (elements (connection_pool σ))
                 ((py "===" ++ [LF; CR]) ++ py "Currently connected users:")
                 (list_line w);
     write w ((message ++ [LF; CR] ++ py "===") ++ [LF; CR])) σ.
Proof. reflexivity. Qed.

Lemma list_users_ok w σ :
  named σ → w ∉ broken σ →
  list_users w σ
  = (Return tt, deliver [w] (listing_of σ w (elements (connection_pool σ))) σ).
Proof.
  intros Hn Hw. rewrite list_users_eq, bind_eq, for_fold_list.
  2:{ intros u Hu. apply Hn. by apply elem_of_elements. }
  rewrite write_ok by done. do 2 f_equal.
  unfold listing_of. by rewrite <-!app_assoc.
Qed.

Lemma step_list σ w text :
  handlers σ !! w = Some AwaitLine →
  strip text = py "/list" → named σ → w ∉ broken σ →
  step σ w (Line text)
  = Some (set_pc w AwaitDrain
            (deliver [w] (listing_of σ w (elements (connection_pool σ))) σ)).
Proof.
  intros Hpc Hl Hn Hw.
  erewrite step_eq; [|done|reflexivity]. f_equal. apply run_return.
  unfold on_read. rewrite Hl.
  rewrite decide_False by (intros H; vm_compute in H; discriminate H).
  rewrite decide_True by done.
  rewrite !bind_eq, list_users_ok by done. done.
Qed.

(** C4, as stated, fails on the order: bob registered first and alice second,
    yet in the listing bob asks for, alice's line comes first.  The set
    forgets the order of arrival. *)
Lemma listing_not_in_arrival_order :
  last (outbox (world_of (two_clients ++ [Deliver 1 (Line (py "/list" ++ [LF]))])) 1)
  = Some (py "===" ++ [LF; CR] ++ py "Currently connected users:"
          ++ [LF; CR] ++ py " - alice"
          ++ [LF; CR] ++ py " - bob (you)"
          ++ [LF; CR] ++ py "===" ++ [LF; CR])
  ∧ listing_of (world_of two_clients) 1 (elements (connection_pool (world_of two_clients)))
    ≠ listing_of (world_of two_clients) 1 [1; 2].
Proof.
  split; [vm_compute; reflexivity|].
  vm_compute. intros H. discriminate H.
Qed.

(** The listing does not tell who came first: whether bob or alice connects
    first, bob is sent the same listing. *)
Example listing_ignores_arrival_order :
  last (outbox (world_of (connect (1, bob_line) ++ connect (2, alice_line)
                          ++ [Deliver 1 (Line (py "/list" ++ [LF]))])) 1)
  = last (outbox (world_of (connect (2, alice_line) ++ connect (1, bob_line)
                            ++ [Deliver 1 (Line (py "/list" ++ [LF]))])) 1).
Proof. vm_compute. reflexivity. Qed.

(** C4, amended: the listing written to a requester [w] has one line per
    member, each member once, in the order in which the set yields its
    members; the line of [w], and no other, carries the [(you)] mark; nothing
    is written to anyone else. *)
Theorem list_users_listing (σ : World) (w : Writer) (text : str) :
  handlers σ !! w = Some AwaitLine →
  strip text = py "/list" →
  named σ → w ∉ broken σ →
  ∃ σ', step σ w (Line text) = Some σ'
    ∧ outbox σ' w
      = outbox σ w ++ [listing_of σ w (elements (connection_pool σ))]
    ∧ (∀ u, u ≠ w → outbox σ' u = outbox σ u)
    ∧ NoDup (elements (connection_pool σ))
    ∧ (∀ u, u ∈ elements (connection_pool σ) ↔ u ∈ connection_pool σ)
    ∧ (∀ u nick, nickname σ !! u = Some nick →
         entry σ w u = [LF; CR] ++ py " - " ++ nick
                       ++ (if decide (u = w) then py " (you)" else [])).
Proof.
  intros Hpc Hl Hn Hw. eexists. split; [by apply step_list|].
  split_and!.
  - rewrite outbox_set_pc, outbox_deliver_one, decide_True; done.
  - intros u Hu. rewrite outbox_set_pc, outbox_deliver_one, decide_False; done.
  - apply NoDup_elements.
  - intros u. apply elem_of_elements.
  - intros u nick Hnick. unfold entry. by rewrite Hnick.
Qed.

Lemma named_two_clients : named (world_of two_clients).
Proof.
  intros u Hu. apply elem_of_elements in Hu. vm_compute in Hu.
  apply elem_of_cons in Hu as [->|Hu]; [by eexists|].
  apply elem_of_cons in Hu as [->|Hu]; [by eexists|].
  by apply elem_of_nil in Hu.
Qed.

Lemma list_users_listing_witness :
  ∃ σ', step (world_of two_clients) 1 (Line (py " /list" ++ [CR; LF])) = Some σ'
    ∧ outbox σ' 1
      = outbox (world_of two_clients) 1
        ++ [listing_of (world_of two_clients) 1
              (elements (connection_pool (world_of two_clients)))]
    ∧ (∀ u, u ≠ 1 → outbox σ' u = outbox (world_of two_clients) u)
    ∧ NoDup (elements (connection_pool (world_of two_clients)))
    ∧ (∀ u, u ∈ elements (connection_pool (world_of two_clients))
            ↔ u ∈ connection_pool (world_of two_clients))
    ∧ (∀ u nick, nickname (world_of two_clients) !! u = Some nick →
         entry (world_of two_clients) 1 u
         = [LF; CR] ++ py " - " ++ nick
           ++ (if decide (u = 1) then py " (you)" else [])).
Proof.
  apply (list_users_listing (world_of two_clients) 1 (py " /list" ++ [CR; LF])).
  - vm_compute. reflexivity.
  - vm_compute. reflexivity.
  - apply named_two_clients.
  - vm_compute. intros H. discriminate H.
Defined.

(** ** C3 and C5: the ways out of the loop body *)

Lemma on_read_quit w text σ :
  strip text = py "/quit" →
  on_read w (Data text) σ = on_read w Incomplete σ.
Proof. intros Hq. unfold on_read. by rewrite decide_True. Qed.

Lemma on_read_incomplete w σ nick :
  nickname σ !! w = Some nick → others_sound σ w →
  on_read w Incomplete σ
  = (Return Break, deliver (recipients σ w) (chunk (quit_message nick)) σ).
Proof.
  intros Hn Hok. unfold on_read.
  rewrite bind_eq, (broadcast_user_quit_ok _ _ nick) by done. done.
Qed.

(** End of stream and a [/quit] line run the same code on the same world. *)
Lemma step_quit_eq σ w text :
  handlers σ !! w = Some AwaitLine →
  strip text = py "/quit" →
  step σ w (Line text) = step σ w IncompleteRead.
Proof.
  intros Hpc Hq.
  erewrite (step_eq _ _ _ (Line text)); [|done|reflexivity].
  erewrite (step_eq _ _ _ IncompleteRead); [|done|reflexivity].
  unfold run. by rewrite !bind_eq, on_read_quit.
Qed.

Lemma step_incomplete σ w nick :
  handlers σ !! w = Some AwaitLine →
  nickname σ !! w = Some nick → others_sound σ w →
  step σ w IncompleteRead = Some (quit_world σ w nick).
Proof.
  intros Hpc Hn Hok.
  erewrite step_eq; [|done|reflexivity]. f_equal. apply run_return.
  rewrite bind_eq, (on_read_incomplete _ _ nick) by done. done.
Qed.

Lemma step_closed σ w :
  handlers σ !! w = Some AwaitClosed → w ∈ connection_pool σ →
  step σ w Resumed
  = Some (set_pc w Finished (set_pool (connection_pool σ ∖ {[w]}) σ).2).
Proof.
  intros Hpc Hin.
  erewrite step_eq; [|done|reflexivity]. f_equal. apply run_return.
  unfold after_closed. rewrite bind_eq, remove_member by done. done.
Qed.

(** C3, as stated, fails for a read that fails otherwise than by end of
    stream (a connection reset, a line over the limit): only
    [IncompleteReadError] is caught.  When alice's read raises anything else
    her handler ends there: bob is told nothing and alice stays in the
    registry.  After [/quit] bob is told and alice is removed. *)
Lemma read_error_unlike_quit :
  handlers (world_of (two_clients ++ [Deliver 2 Failed])) !! 2
  = Some (Crashed OtherError)
  ∧ outbox (world_of (two_clients ++ [Deliver 2 Failed])) 1
    = outbox (world_of two_clients) 1
  ∧ elements (connection_pool (world_of (two_clients ++ [Deliver 2 Failed])))
    = [2; 1]
  ∧ last (outbox (world_of (two_clients
            ++ [Deliver 2 (Line (py "/quit" ++ [LF])); Deliver 2 Resumed])) 1)
    = Some (py "alice just quit" ++ [LF; CR])
  ∧ elements (connection_pool (world_of (two_clients
            ++ [Deliver 2 (Line (py "/quit" ++ [LF])); Deliver 2 Resumed])))
    = [1].
Proof. split_and!; vm_compute; reflexivity. Qed.

(** C3, amended: for an active, registered session, end of stream
    ([IncompleteReadError]) and a line that strips to [/quit] lead to the
    same world: every other member is written the quit announcement once,
    nothing is written to the session itself, and once [wait_closed] returns
    the session is out of the registry and its handler has returned.  A read
    that raises anything else ends the handler and changes nothing else: no
    announcement, no removal.  The writes are taken not to raise. *)
Theorem end_of_stream_like_quit (σ : World) (w : Writer) (text nick : str) :
  handlers σ !! w = Some AwaitLine →
  w ∈ connection_pool σ →
  nickname σ !! w = Some nick →
  strip text = py "/quit" →
  others_sound σ w →
  step σ w IncompleteRead = step σ w (Line text)
  ∧ ∃ σ1 σ2,
      step σ w IncompleteRead = Some σ1
      ∧ step σ1 w Resumed = Some σ2
      ∧ (∀ u, u ∈ connection_pool σ → u ≠ w →
           outbox σ2 u = outbox σ u ++ [chunk (quit_message nick)])
      ∧ outbox σ2 w = outbox σ w
      ∧ connection_pool σ1 = connection_pool σ
      ∧ connection_pool σ2 = connection_pool σ ∖ {[w]}
      ∧ handlers σ2 !! w = Some Finished
      ∧ step σ w Failed = Some (set_pc w (Crashed OtherError) σ).
Proof.
  intros Hpc Hin Hn Hq Hok. split; [symmetry; by apply step_quit_eq|].
  assert (connection_pool (quit_world σ w nick) = connection_pool σ) as Hpool.
  { simpl. apply deliver_pool. }
  eexists _, _. split; [by apply step_incomplete|].
  split.
  { apply step_closed.
    - simpl. apply lookup_insert_eq.
    - by rewrite Hpool. }
  split_and!.
  - intros u Hu Hne. simpl. unfold outbox at 1. simpl.
    fold (outbox (deliver (recipients σ w) (chunk (quit_message nick)) σ) u).
    rewrite outbox_broadcast by done. by rewrite decide_True.
  - unfold outbox at 1. simpl.
    fold (outbox (deliver (recipients σ w) (chunk (quit_message nick)) σ) w).
    rewrite outbox_broadcast by done.
    rewrite decide_False; [by rewrite app_nil_r|]. by intros [_ []].
  - done.
  - simpl. by rewrite deliver_pool.
  - simpl. apply lookup_insert_eq.
  - erewrite step_eq; [|done|reflexivity]. f_equal.
Qed.

Lemma end_of_stream_like_quit_witness :
  step (world_of two_clients) 2 IncompleteRead
  = step (world_of two_clients) 2 (Line (py " /quit" ++ [CR; LF]))
  ∧ ∃ σ1 σ2,
      step (world_of two_clients) 2 IncompleteRead = Some σ1
      ∧ step σ1 2 Resumed = Some σ2
      ∧ (∀ u, u ∈ connection_pool (world_of two_clients) → u ≠ 2 →
           outbox σ2 u
           = outbox (world_of two_clients) u ++ [chunk (quit_message (py "alice"))])
      ∧ outbox σ2 2 = outbox (world_of two_clients) 2
      ∧ connection_pool σ1 = connection_pool (world_of two_clients)
      ∧ connection_pool σ2 = connection_pool (world_of two_clients) ∖ {[2]}
      ∧ handlers σ2 !! 2 = Some Finished
      ∧ step (world_of two_clients) 2 Failed
        = Some (set_pc 2 (Crashed OtherError) (world_of two_clients)).
Proof.
  apply (end_of_stream_like_quit (world_of two_clients) 2
           (py " /quit" ++ [CR; LF]) (py "alice")).
  - vm_compute. reflexivity.
  - vm_compute. reflexivity.
  - vm_compute. reflexivity.
  - vm_compute. reflexivity.
  - apply two_clients_sound.
Defined.

(** C5, as stated, fails: the line is stripped before it is compared.  When
    alice sends [/quit] with spaces around it she quits, and [/list] with
    spaces around it is answered with the listing; neither is passed on as
    chat. *)
Lemma padded_command_runs :
  last (outbox (world_of (two_clients ++ [Deliver 2 (Line (py "  /quit " ++ [LF]))])) 1)
  = Some (py "alice just quit" ++ [LF; CR])
  ∧ handlers (world_of (two_clients ++ [Deliver 2 (Line (py "  /quit " ++ [LF]))])) !! 2
    = Some AwaitClosed
  ∧ outbox (world_of (two_clients ++ [Deliver 2 (Line (py " /list  " ++ [LF]))])) 1
    = outbox (world_of two_clients) 1
  ∧ length (outbox (world_of (two_clients ++ [Deliver 2 (Line (py " /list  " ++ [LF]))])) 2)
    = S (length (outbox (world_of two_clients) 2)).
Proof. split_and!; vm_compute; reflexivity. Qed.

(** C5, amended: the line read by an active session is stripped, and the
    stripped line decides: [/quit] announces the quit and leaves the loop,
    [/list] writes the listing to the requester, and anything else, the
    empty line and other words that start with a slash included, is
    broadcast as [[nickname]: ] followed by the stripped line.  The writes
    are taken not to raise and the members to have nicknames. *)
Theorem line_dispatch (σ : World) (w : Writer) (text nick : str) :
  handlers σ !! w = Some AwaitLine →
  nickname σ !! w = Some nick →
  named σ → others_sound σ w → w ∉ broken σ →
  step σ w (Line text)
  = Some (if decide (strip text = py "/quit") then quit_world σ w nick
          else if decide (strip text = py "/list") then
            set_pc w AwaitDrain
              (deliver [w] (listing_of σ w (elements (connection_pool σ))) σ)
          else
            set_pc w AwaitDrain
              (deliver (recipients σ w)
                 (chunk (chat_message nick (strip text))) σ)).
Proof.
  intros Hpc Hn Hnamed Hok Hw.
  destruct (decide (strip text = py "/quit")) as [Hq|Hq].
  { rewrite step_quit_eq by done. by apply step_incomplete. }
  destruct (decide (strip text = py "/list")) as [Hl|Hl].
  { by apply step_list. }
  by apply step_chat.
Qed.

Lemma line_dispatch_witness :
  step (world_of two_clients) 2 (Line (py "/quitx" ++ [LF]))
  = Some (if decide (strip (py "/quitx" ++ [LF]) = py "/quit") then
            quit_world (world_of two_clients) 2 (py "alice")
          else if decide (strip (py "/quitx" ++ [LF]) = py "/list") then
            set_pc 2 AwaitDrain
              (deliver [2] (listing_of (world_of two_clients) 2
                              (elements (connection_pool (world_of two_clients))))
                 (world_of two_clients))
          else
            set_pc 2 AwaitDrain
              (deliver (recipients (world_of two_clients) 2)
                 (chunk (chat_message (py "alice") (strip (py "/quitx" ++ [LF]))))
                 (world_of two_clients))).
Proof.
  apply (line_dispatch (world_of two_clients) 2 (py "/quitx" ++ [LF]) (py "alice")).
  - vm_compute. reflexivity.
  - vm_compute. reflexivity.
  - apply named_two_clients.
  - apply two_clients_sound.
  - vm_compute. intros H. discriminate H.
Defined.

(** An empty line, and a word that only starts with a slash, are chat. *)
Example empty_line_is_chat :
  last (outbox (world_of (two_clients ++ [Deliver 2 (Line [LF])])) 1)
  = Some (py "[alice]: " ++ [LF; CR])
  ∧ last (outbox (world_of (two_clients ++ [Deliver 2 (Line (py "/quitx" ++ [LF]))])) 1)
    = Some (py "[alice]: /quitx" ++ [LF; CR]).
Proof. split; vm_compute; reflexivity. Qed.

(** ** Computations that only write *)

Lemma only_written_refl σ : only_written σ σ.
Proof. by repeat split. Qed.

Lemma only_written_trans σ1 σ2 σ3 :
  only_written σ1 σ2 → only_written σ2 σ3 → only_written σ1 σ3.
Proof.
  intros (?&?&?&?&?) (?&?&?&?&?). repeat split; congruence.
Qed.

Lemma writes_only_ret {A} (a : A) : writes_only (ret a).
Proof. intros σ. apply only_written_refl. Qed.

Lemma writes_only_raise {A} e : writes_only (@raise A e).
Proof. intros σ. apply only_written_refl. Qed.

Lemma writes_only_bind {A B} (m : M A) (k : A → M B) :
  writes_only m → (∀ a, writes_only (k a)) → writes_only (m ≫= k).
Proof.
  intros Hm Hk σ. rewrite bind_eq. specialize (Hm σ).
  destruct (m σ) as [[a|e] σ']; simpl in *; [|done].
  eapply only_written_trans; [done|apply Hk].
Qed.

Lemma writes_only_write u data : writes_only (write u data).
Proof. intros σ. unfold write. case_decide; by repeat split. Qed.

Lemma writes_only_get_nickname u : writes_only (get_nickname u).
Proof.
  intros σ. unfold get_nickname. destruct (nickname σ !! u); apply only_written_refl.
Qed.

Lemma writes_only_get_pool : writes_only get_pool.
Proof. intros σ. apply only_written_refl. Qed.

Lemma writes_only_for_each {A} (xs : list A) body :
  (∀ x, writes_only (body x)) → writes_only (for_each xs body).
Proof.
  intros Hb. induction xs as [|x xs IH]; [apply writes_only_ret|].
  rewrite for_each_cons. apply writes_only_bind; [apply Hb|done].
Qed.

Lemma writes_only_for_fold {A B} (xs : list A) (acc : B) body :
  (∀ b x, writes_only (body b x)) → writes_only (for_fold xs acc body).
Proof.
  intros Hb. revert acc. induction xs as [|x xs IH]; intros acc.
  - apply writes_only_ret.
  - change (for_fold (x :: xs) acc body)
      with (acc' ← body acc x; for_fold xs acc' body).
    apply writes_only_bind; [apply Hb|done].
Qed.

Lemma writes_only_broadcast w message : writes_only (broadcast w message).
Proof.
  apply writes_only_bind; [apply writes_only_get_pool|]. intros pool.
  apply writes_only_for_each. intros u.
  case_decide; [apply writes_only_write|apply writes_only_ret].
Qed.

Lemma writes_only_broadcast_user_join w : writes_only (broadcast_user_join w).
Proof.
  apply writes_only_bind; [apply writes_only_get_nickname|].
  intros nick. apply writes_only_broadcast.
Qed.

Lemma writes_only_broadcast_user_quit w : writes_only (broadcast_user_quit w).
Proof.
  apply writes_only_bind; [apply writes_only_get_nickname|].
  intros nick. apply writes_only_broadcast.
Qed.

Lemma writes_only_broadcast_new_message w message :
  writes_only (broadcast_new_message w message).
Proof.
  apply writes_only_bind; [apply writes_only_get_nickname|].
  intros nick. apply writes_only_broadcast.
Qed.

Lemma writes_only_send_welcome_message w : writes_only (send_welcome_message w).
Proof.
  apply writes_only_bind; [apply writes_only_get_nickname|]. intros nick.
  apply writes_only_bind; [apply writes_only_get_pool|]. intros pool.
  apply writes_only_write.
Qed.

Lemma writes_only_list_users w : writes_only (list_users w).
Proof.
  apply writes_only_bind; [apply writes_only_get_pool|]. intros pool.
  apply writes_only_bind; [|intros message; apply writes_only_write].
  apply writes_only_for_fold. intros message u.
  apply writes_only_bind; [apply writes_only_get_nickname|].
  intros nick. apply writes_only_ret.
Qed.

Lemma writes_only_on_read w r : writes_only (on_read w r).
Proof.
  destruct r as [text|]; unfold on_read.
  - repeat case_decide; (apply writes_only_bind; [|intros; apply writes_only_ret]).
    + apply writes_only_broadcast_user_quit.
    + apply writes_only_list_users.
    + apply writes_only_broadcast_new_message.
  - apply writes_only_bind; [|intros; apply writes_only_ret].
    apply writes_only_broadcast_user_quit.
Qed.

(** ** The handshake *)

Lemma handshake_eq w text σ :
  handshake w text σ
  = (send_welcome_message w ;; broadcast_user_join w)
      (registered σ w (strip text)).
Proof. reflexivity. Qed.

(** Whatever happens to the writes, the handshake leaves [w] registered
    under the stripped line. *)
Lemma handshake_registers w text σ :
  connection_pool (handshake w text σ).2 = connection_pool σ ∪ {[w]}
  ∧ nickname (handshake w text σ).2 = <[w := strip text]> (nickname σ).
Proof.
  rewrite handshake_eq.
  destruct (writes_only_bind (send_welcome_message w)
              (λ _, broadcast_user_join w)
              (writes_only_send_welcome_message w)
              (λ _, writes_only_broadcast_user_join w)
              (registered σ w (strip text))) as (Hp & Hn & _).
  by rewrite Hp, Hn.
Qed.

Lemma step_handshake σ w text :
  handlers σ !! w = Some AwaitNickname →
  ∃ σ', step σ w (Line text) = Some σ'
    ∧ connection_pool σ' = connection_pool σ ∪ {[w]}
    ∧ nickname σ' = <[w := strip text]> (nickname σ).
Proof.
  intros Hpc. eexists. split; [by erewrite step_eq|].
  destruct (handshake_registers w text σ) as [Hp Hn].
  unfold run. rewrite bind_eq.
  destruct (handshake w text σ) as [[[]|e] σ']; simpl in *; done.
Qed.

(** ** [strip] *)

Lemma lstrip_split (s : str) :
  ∃ l, s = l ++ lstrip s ∧ Forall (λ c, isspace c = true) l.
Proof.
  induction s as [|c s (l & Hs & Hl)]; [by exists []|].
  simpl. destruct (isspace c) eqn:Hc.
  - exists (c :: l). split; [by rewrite <-app_comm_cons, <-Hs|by constructor].
  - by exists [].
Qed.

Lemma lstrip_head (s : str) c : head (lstrip s) = Some c → isspace c = false.
Proof.
  induction s as [|x s IH]; [done|].
  simpl. destruct (isspace x) eqn:Hx; [done|]. simpl. congruence.
Qed.

Lemma rstrip_split (s : str) :
  ∃ r, s = rstrip s ++ r ∧ Forall (λ c, isspace c = true) r.
Proof.
  destruct (lstrip_split (reverse s)) as (l & Hs & Hl).
  exists (reverse l). split; [|by apply Forall_reverse].
  unfold rstrip. rewrite <-reverse_app, <-Hs. by rewrite reverse_involutive.
Qed.

Lemma rstrip_last (s : str) c : last (rstrip s) = Some c → isspace c = false.
Proof. unfold rstrip. rewrite last_reverse. apply lstrip_head. Qed.

(** [strip] takes away a run of whitespace at each end, and what is left
    neither starts nor ends with whitespace. *)
Lemma strip_spec (s : str) :
  ∃ l r, s = l ++ strip s ++ r
    ∧ Forall (λ c, isspace c = true) l
    ∧ Forall (λ c, isspace c = true) r
    ∧ (∀ c, head (strip s) = Some c → isspace c = false)
    ∧ (∀ c, last (strip s) = Some c → isspace c = false).
Proof.
  destruct (lstrip_split s) as (l & Hs & Hl).
  destruct (rstrip_split (lstrip s)) as (r & Ht & Hr).
  exists l, r. fold (strip s) in Ht. split_and!; try done.
  - by rewrite <-Ht.
  - intros c Hc. apply (lstrip_head s). rewrite Ht.
    destruct (strip s); [done|]. done.
  - apply rstrip_last.
Qed.

(** ** Every member has a nickname *)

Lemma only_written_no_new_member σ σ' :
  only_written σ σ' → no_new_member σ σ'.
Proof. intros (Hp & Hn & _). split; [by rewrite Hp|done]. Qed.

Lemma no_new_member_trans σ1 σ2 σ3 :
  no_new_member σ1 σ2 → no_new_member σ2 σ3 → no_new_member σ1 σ3.
Proof. intros [? ?] [? ?]. split; [by etrans|congruence]. Qed.

Lemma no_new_member_named σ σ' : no_new_member σ σ' → named σ → named σ'.
Proof. intros [Hp Hn] Hnamed u Hu. rewrite Hn. apply Hnamed, Hp, Hu. Qed.

Lemma no_new_member_bind {A B} (m : M A) (k : A → M B) σ :
  no_new_member σ (m σ).2 →
  (∀ a σ', no_new_member σ' (k a σ').2) →
  no_new_member σ ((m ≫= k) σ).2.
Proof.
  intros Hm Hk. rewrite bind_eq.
  destruct (m σ) as [[a|e] σ']; simpl in *; [|done].
  eapply no_new_member_trans; [done|apply Hk].
Qed.

Lemma no_new_member_leave w σ : no_new_member σ (leave w σ).2.
Proof. by split. Qed.

Lemma no_new_member_after_drain w σ : no_new_member σ (after_drain w σ).2.
Proof.
  unfold after_drain. rewrite bind_eq. simpl. by case_bool_decide.
Qed.

Lemma no_new_member_after_closed w σ : no_new_member σ (after_closed w σ).2.
Proof.
  unfold after_closed, remove_user_from_pool. rewrite !bind_eq. simpl.
  case_decide; simpl; split; (done || by apply subseteq_difference_l).
Qed.

(** Every segment but the handshake adds no member and changes no nickname. *)
Lemma segment_no_new_member w p o m σ :
  segment w p o = Some m →
  (∃ text, p = AwaitNickname ∧ o = Line text)
  ∨ no_new_member σ (m σ).2.
Proof.
  intros Hm.
  destruct p, o; unfold segment in Hm; try discriminate Hm;
    injection Hm as <-; try (by left; eexists); right; try (by split).
  - apply no_new_member_bind.
    + apply only_written_no_new_member, (writes_only_on_read w (Data text)).
    + intros [] σ'; [by split|apply no_new_member_leave].
  - apply no_new_member_bind.
    + apply only_written_no_new_member, (writes_only_on_read w Incomplete).
    + intros [] σ'; [by split|apply no_new_member_leave].
  - apply no_new_member_after_drain.
  - apply no_new_member_after_closed.
Qed.

Lemma run_fields w (m : M pc) σ :
  connection_pool (run w m σ) = connection_pool (m σ).2
  ∧ nickname (run w m σ) = nickname (m σ).2.
Proof. unfold run. by destruct (m σ) as [[p|e] σ']. Qed.

Lemma named_act σ a σ' : named σ → act σ a = Some σ' → named σ'.
Proof.
  intros Hnamed Hact. destruct a as [w|w o|w|w]; simpl in Hact.
  - destruct (handlers σ !! w); [done|]. injection Hact as <-.
    eapply no_new_member_named; [|done].
    destruct (run_fields w (prompt w ;; ret AwaitNickname) σ) as [Hp Hn].
    destruct (writes_only_bind (prompt w) (λ _, ret AwaitNickname)
                (writes_only_write _ _) (λ _, writes_only_ret _) σ)
      as (Hp' & Hn' & _).
    split; [by rewrite Hp, Hp'|by rewrite Hn, Hn'].
  - unfold step in Hact.
    destruct (handlers σ !! w) as [p|] eqn:Hpc; [|done]. simpl in Hact.
    destruct (segment w p o) as [m|] eqn:Hm; [|done]. injection Hact as <-.
    destruct (segment_no_new_member w p o m σ Hm) as [(text & -> & ->)|Hno].
    + destruct (step_handshake σ w text Hpc) as (σ' & Hstep & Hp & Hn).
      erewrite step_eq in Hstep by done. injection Hstep as <-.
      intros u Hu. rewrite Hp in Hu. rewrite Hn.
      destruct (decide (u = w)) as [->|Hne].
      * rewrite lookup_insert_eq. by eexists.
      * rewrite lookup_insert_ne by done. apply Hnamed.
        by apply elem_of_union in Hu as [Hu|Hu%elem_of_singleton].
    + eapply no_new_member_named; [|done].
      destruct (run_fields w m σ) as [Hp Hn]. destruct Hno as [Hp' Hn'].
      split; [by rewrite Hp|by rewrite Hn].
  - by injection Hact as <-.
  - by injection Hact as <-.
Qed.

Lemma named_exec acts : ∀ σ σ', named σ → exec σ acts = Some σ' → named σ'.
Proof.
  induction acts as [|a acts IH]; intros σ σ' Hnamed Hexec; simpl in Hexec.
  - by injection Hexec as <-.
  - destruct (act σ a) as [σ1|] eqn:Hact; [|done]. simpl in Hexec.
    eapply IH; [|done]. by eapply named_act.
Qed.

Lemma named_init : named init.
Proof. intros u Hu. by apply not_elem_of_empty in Hu. Qed.

(** ** C6: an empty nickname *)

(** C6, as stated, fails: a client whose nickname line holds only blanks is
    registered, under the empty nickname, and welcomed like any other. *)
Lemma blank_nickname_registered :
  elements (connection_pool (world_of (connect (1, py "   " ++ [CR; LF])))) = [1]
  ∧ nickname (world_of (connect (1, py "   " ++ [CR; LF]))) !! 1 = Some []
  ∧ handlers (world_of (connect (1, py "   " ++ [CR; LF]))) !! 1 = Some AwaitLine.
Proof. split_and!; vm_compute; reflexivity. Qed.

(** C6, amended: the handshake does not check the nickname.  When the line
    strips to nothing the session gets the empty nickname and is added to
    the registry. *)
Theorem blank_nickname_admitted (σ : World) (w : Writer) (text : str) :
  handlers σ !! w = Some AwaitNickname →
  strip text = [] →
  ∃ σ', step σ w (Line text) = Some σ'
    ∧ w ∈ connection_pool σ'
    ∧ nickname σ' !! w = Some [].
Proof.
  intros Hpc Hblank.
  destruct (step_handshake σ w text Hpc) as (σ' & Hstep & Hp & Hn).
  exists σ'. split_and!; [done| |].
  - rewrite Hp. apply elem_of_union_r. by apply elem_of_singleton.
  - by rewrite Hn, Hblank, lookup_insert_eq.
Qed.

Lemma blank_nickname_admitted_witness :
  ∃ σ', step (world_of [Accept 1]) 1 (Line (py "  " ++ [LF])) = Some σ'
    ∧ 1 ∈ connection_pool σ'
    ∧ nickname σ' !! 1 = Some [].
Proof.
  apply (blank_nickname_admitted (world_of [Accept 1]) 1 (py "  " ++ [LF])).
  - vm_compute. reflexivity.
  - vm_compute. reflexivity.
Defined.

(** ** C10: the nickname is the stripped first line, set before the writer
    is added *)

(** C10: the first line, stripped of the whitespace at both ends (the
    newline and a carriage return before it included), becomes the nickname;
    the attribute is set while the registry is still as it was, and the
    writer is added after; so in every world the server reaches, every
    member has a nickname. *)
Theorem nickname_before_registration :
  (∀ σ w text,
     handlers σ !! w = Some AwaitNickname →
     ∃ σ', step σ w (Line text) = Some σ'
       ∧ nickname σ' !! w = Some (strip text)
       ∧ w ∈ connection_pool σ')
  ∧ (∀ text : str,
       ∃ l r, text = l ++ strip text ++ r
         ∧ Forall (λ c, isspace c = true) l
         ∧ Forall (λ c, isspace c = true) r
         ∧ (∀ c, head (strip text) = Some c → isspace c = false)
         ∧ (∀ c, last (strip text) = Some c → isspace c = false))
  ∧ isspace LF = true ∧ isspace CR = true
  ∧ (∀ σ w text,
       handshake w text σ
       = (add_new_user_to_pool w ;; send_welcome_message w ;;
          broadcast_user_join w) (set_nickname w (strip text) σ).2
       ∧ nickname (set_nickname w (strip text) σ).2 !! w = Some (strip text)
       ∧ connection_pool (set_nickname w (strip text) σ).2 = connection_pool σ)
  ∧ (∀ σ, reachable σ → named σ).
Proof.
  split_and!.
  - intros σ w text Hpc.
    destruct (step_handshake σ w text Hpc) as (σ' & Hstep & Hp & Hn).
    exists σ'. split_and!; [done| |].
    + by rewrite Hn, lookup_insert_eq.
    + rewrite Hp. apply elem_of_union_r. by apply elem_of_singleton.
  - apply strip_spec.
  - reflexivity.
  - reflexivity.
  - intros σ w text. split_and!; [reflexivity| |reflexivity].
    simpl. apply lookup_insert_eq.
  - intros σ [acts Hexec]. eapply named_exec; [apply named_init|done].
Qed.

(** ** [textwrap.dedent] and the text of the welcome *)

Lemma split_lines_aux_cons cur c (s : str) :
  split_lines_aux cur (c :: s)
  = if decide (c = LF) then reverse cur :: split_lines_aux [] s
    else split_lines_aux (c :: cur) s.
Proof. reflexivity. Qed.

Lemma split_lines_aux_app cur (a s : str) :
  LF ∉ a → split_lines_aux cur (a ++ s) = split_lines_aux (reverse a ++ cur) s.
Proof.
  revert cur. induction a as [|c a IH]; intros cur Ha; [done|].
  rewrite <-app_comm_cons, split_lines_aux_cons.
  rewrite decide_False by (intros ->; apply Ha; left).
  rewrite IH by (intros H; apply Ha; by right).
  by rewrite reverse_cons, <-app_assoc.
Qed.

Lemma split_lines_one (a : str) : LF ∉ a → split_lines a = [a].
Proof.
  intros Ha. unfold split_lines.
  rewrite <-(app_nil_r a) at 1. rewrite split_lines_aux_app by done.
  simpl. by rewrite app_nil_r, reverse_involutive.
Qed.

Lemma split_lines_cons (a s : str) :
  LF ∉ a → split_lines (a ++ LF :: s) = a :: split_lines s.
Proof.
  intros Ha. unfold split_lines. rewrite split_lines_aux_app by done.
  rewrite split_lines_aux_cons, decide_True by done.
  by rewrite app_nil_r, reverse_involutive.
Qed.

Lemma split_join (ls : list str) :
  ls ≠ [] → Forall (λ l, LF ∉ l) ls → split_lines (join_lines ls) = ls.
Proof.
  induction ls as [|l ls IH]; intros Hne Hls; [done|].
  apply Forall_cons in Hls as [Hl Hls].
  destruct ls as [|l' ls].
  - simpl. by apply split_lines_one.
  - change (join_lines (l :: l' :: ls)) with (l ++ LF :: join_lines (l' :: ls)).
    rewrite split_lines_cons by done. f_equal. by apply IH.
Qed.

Lemma welcome_text_lines nick count :
  welcome_text nick count = join_lines (welcome_lines nick (str_of_int count)).
Proof.
  unfold welcome_text, welcome_lines.
  cbn [join_lines]. rewrite <-!app_assoc. reflexivity.
Qed.

Lemma pretty_N_go_no_LF x s : LF ∉ py s → LF ∉ py (pretty_N_go x s).
Proof.
  revert s. induction (N.lt_wf_0 x) as [x _ IH]; intros s Hs.
  assert (x = 0 ∨ 0 < x)%N as [->|?] by lia.
  - by rewrite pretty_N_go_0.
  - rewrite pretty_N_go_step by done. apply IH.
    { by apply N.div_lt. }
    change (py (String (pretty_N_char (x `mod` 10)) s))
      with (Ascii.N_of_ascii (pretty_N_char (x `mod` 10)) :: py s).
    intros [Hc|Hc]%elem_of_cons; [|done].
    unfold pretty_N_char in Hc. by repeat case_match.
Qed.

Lemma str_of_int_no_LF n : LF ∉ str_of_int n.
Proof.
  assert (LF ∉ py "") as Hnil by (intros H; by apply elem_of_nil in H).
  assert (∀ p, LF ∉ py (pretty (Npos p))) as Hpos.
  { intros p. unfold pretty, pretty_N. rewrite decide_False by done.
    by apply pretty_N_go_no_LF. }
  unfold str_of_int. destruct n as [|p|p].
  - intros [?|?%elem_of_nil]%elem_of_cons; done.
  - apply Hpos.
  - change (py (pretty (Z.neg p))) with (45%N :: py (pretty (Npos p))).
    intros [?|?]%elem_of_cons; [done|]. by apply (Hpos p).
Qed.

Lemma closed_no_LF (l : str) : bool_decide (LF ∉ l) = true → LF ∉ l.
Proof. apply bool_decide_eq_true_1. Qed.

Lemma dedent_welcome_lines nick k :
  dedent_lines (welcome_lines nick k) = shown_lines nick k.
Proof. vm_compute. reflexivity. Qed.

Lemma join_shown_lines nick count :
  join_lines (shown_lines nick (str_of_int count)) ++ [LF; CR]
  = welcome_shown nick count.
Proof.
  unfold shown_lines, welcome_shown.
  repeat (progress (cbn [join_lines app]; rewrite <-?app_assoc)).
  reflexivity.
Qed.

Lemma welcome_message_text nick count :
  LF ∉ nick → welcome_message nick count = welcome_shown nick count.
Proof.
  intros Hnick. unfold welcome_message, dedent.
  rewrite welcome_text_lines, split_join; [|done|].
  - rewrite dedent_welcome_lines. apply join_shown_lines.
  - pose proof (str_of_int_no_LF count) as Hcount.
    unfold welcome_lines.
    repeat (apply Forall_cons; split); [..|apply Forall_nil]; cbv beta;
      repeat (apply not_elem_of_app; split);
      first [assumption | exact I | apply closed_no_LF; vm_compute; reflexivity].
Qed.

(** ** C2: the welcome message *)

Lemma send_welcome_message_ok w σ nick :
  nickname σ !! w = Some nick → w ∉ broken σ →
  send_welcome_message w σ
  = (Return tt,
     deliver [w]
       (welcome_message nick (Z.of_nat (size (connection_pool σ)) - 1)) σ).
Proof.
  intros Hn Hw. unfold send_welcome_message.
  rewrite bind_eq, (get_nickname_some _ _ nick) by done.
  rewrite bind_eq. simpl. by rewrite write_ok.
Qed.

Lemma step_handshake_ok σ w text :
  handlers σ !! w = Some AwaitNickname → broken σ = ∅ →
  step σ w (Line text) = Some (joined σ w (strip text)).
Proof.
  intros Hpc Hbr.
  erewrite step_eq; [|done|reflexivity]. f_equal. apply run_return.
  rewrite bind_eq, handshake_eq, bind_eq.
  rewrite (send_welcome_message_ok _ _ (strip text)).
  - fold (welcomed σ w (strip text)).
    rewrite (broadcast_user_join_ok _ _ (strip text)); [done| |].
    + unfold welcomed. rewrite deliver_nickname. simpl. apply lookup_insert_eq.
    + apply others_sound_empty. unfold welcomed. by rewrite deliver_broken.
  - simpl. apply lookup_insert_eq.
  - simpl. rewrite Hbr. apply not_elem_of_empty.
Qed.

Lemma welcomed_pool σ w nick :
  connection_pool (welcomed σ w nick) = connection_pool σ ∪ {[w]}.
Proof. unfold welcomed. by rewrite deliver_pool. Qed.

Lemma welcomed_broken σ w nick : broken (welcomed σ w nick) = broken σ.
Proof. unfold welcomed. by rewrite deliver_broken. Qed.

Lemma outbox_welcomed σ w nick u :
  w ∉ broken σ →
  outbox (welcomed σ w nick) u
  = outbox σ u
    ++ (if decide (u = w)
        then [welcome_message nick (Z.of_nat (size (connection_pool σ ∪ {[w]})) - 1)]
        else []).
Proof.
  intros Hw. unfold welcomed. rewrite outbox_deliver_one by done.
  case_decide as Hu; [by subst|by rewrite app_nil_r].
Qed.

Lemma outbox_joined σ w nick u :
  broken σ = ∅ →
  outbox (joined σ w nick) u
  = outbox σ u
    ++ (if decide (u = w)
        then [welcome_message nick (Z.of_nat (size (connection_pool σ ∪ {[w]})) - 1)]
        else if decide (u ∈ connection_pool σ)
             then [chunk (join_message nick)] else []).
Proof.
  intros Hbr. unfold joined. rewrite outbox_set_pc.
  rewrite outbox_broadcast
    by (apply others_sound_empty; by rewrite welcomed_broken).
  rewrite outbox_welcomed by (rewrite Hbr; apply not_elem_of_empty).
  rewrite welcomed_pool.
  destruct (decide (u = w)) as [->|Hne].
  - rewrite decide_False; [by rewrite app_nil_r|]. by intros [_ []].
  - rewrite app_nil_r. destruct (decide (u ∈ connection_pool σ)) as [Hu|Hu].
    + rewrite decide_True; [done|]. split; [by apply elem_of_union_l|done].
    + rewrite decide_False; [by rewrite app_nil_r|].
      intros [[?|?%elem_of_singleton]%elem_of_union _]; done.
Qed.

Lemma broadcast_user_join_sender w σ :
  outbox (broadcast_user_join w σ).2 w = outbox σ w.
Proof. apply (announce_sender w (λ nick, nick ++ py " just joined")). Qed.

(** The count in the welcome is the size of the registry, taken once the
    new writer is in it, less one; whatever then happens to the
    announcement of the arrival. *)
Lemma step_handshake_welcome σ w text :
  handlers σ !! w = Some AwaitNickname → w ∉ broken σ →
  ∃ σ', step σ w (Line text) = Some σ'
    ∧ connection_pool σ' = connection_pool σ ∪ {[w]}
    ∧ outbox σ' w
      = outbox σ w
        ++ [welcome_message (strip text)
              (Z.of_nat (size (connection_pool σ')) - 1)].
Proof.
  intros Hpc Hw.
  destruct (step_handshake σ w text Hpc) as (σ' & Hstep & Hp & Hn).
  exists σ'. split_and!; [done|done|]. rewrite Hp.
  erewrite step_eq in Hstep by done. injection Hstep as <-.
  unfold run. rewrite bind_eq, handshake_eq, bind_eq.
  rewrite (send_welcome_message_ok _ _ (strip text));
    [|simpl; apply lookup_insert_eq|done].
  change (deliver [w] _ (registered σ w (strip text)))
    with (welcomed σ w (strip text)).
  pose proof (broadcast_user_join_sender w (welcomed σ w (strip text))) as Hs.
  rewrite outbox_welcomed, decide_True in Hs by done.
  by destruct (broadcast_user_join w (welcomed σ w (strip text))) as [[[]|e] σ''].
Qed.

(** What one connection does to a world in which no [write] raises. *)
Lemma connect_effect σ w text :
  handlers σ !! w = None → broken σ = ∅ →
  ∃ σ', exec σ (connect (w, text)) = Some σ'
    ∧ connection_pool σ' = connection_pool σ ∪ {[w]}
    ∧ broken σ' = ∅
    ∧ handlers σ' = <[w := AwaitLine]> (handlers σ)
    ∧ outbox σ' w
      = outbox σ w
        ++ [prompt_text;
            welcome_message (strip text)
              (Z.of_nat (size (connection_pool σ ∪ {[w]})) - 1)]
    ∧ (∀ u, u ≠ w →
         outbox σ' u
         = outbox σ u
           ++ (if decide (u ∈ connection_pool σ)
               then [chunk (join_message (strip text))] else [])).
Proof.
  intros Hfresh Hbr.
  assert (w ∉ broken σ) as Hw by (rewrite Hbr; apply not_elem_of_empty).
  set (σa := set_pc w AwaitNickname (deliver [w] prompt_text σ)).
  assert (act σ (Accept w) = Some σa) as Hacc.
  { simpl. rewrite Hfresh. f_equal. apply run_return.
    rewrite bind_eq. unfold prompt. by rewrite write_ok. }
  assert (broken σa = ∅) as Hbra.
  { unfold σa. simpl. by rewrite deliver_broken. }
  assert (connection_pool σa = connection_pool σ) as Hpa.
  { unfold σa. simpl. by rewrite deliver_pool. }
  assert (∀ u, outbox σa u
               = outbox σ u ++ (if decide (u = w) then [prompt_text] else []))
    as Houta.
  { intros u. unfold σa. rewrite outbox_set_pc, outbox_deliver_one by done.
    case_decide; [by subst|by rewrite app_nil_r]. }
  exists (joined σa w (strip text)). split_and!.
  - unfold connect. simpl fst. simpl snd.
    change (exec σ [Accept w; Deliver w (Line text)])
      with (σ' ← act σ (Accept w); σ'' ← act σ' (Deliver w (Line text)); Some σ'').
    rewrite Hacc. simpl. rewrite step_handshake_ok; [done| |done].
    unfold σa. simpl. apply lookup_insert_eq.
  - simpl. by rewrite deliver_pool, welcomed_pool, Hpa.
  - simpl. by rewrite deliver_broken, welcomed_broken.
  - simpl. rewrite deliver_handlers. unfold welcomed.
    rewrite deliver_handlers. simpl. rewrite deliver_handlers.
    apply insert_insert_eq.
  - rewrite outbox_joined, Houta, Hpa, !decide_True by done.
    by rewrite <-app_assoc.
  - intros u Hne. rewrite outbox_joined, Houta, Hpa by done.
    rewrite !(decide_False (P := u = w)) by done. by rewrite app_nil_r.
Qed.

(** *** A sequence of connections *)

Lemma exec_app σ acts1 acts2 :
  exec σ (acts1 ++ acts2) = (σ' ← exec σ acts1; exec σ' acts2).
Proof.
  revert σ. induction acts1 as [|a acts1 IH]; intros σ; [done|].
  simpl. destruct (act σ a) as [σ1|]; [|done]. simpl. apply IH.
Qed.

Lemma connects_snoc cs c : connects (cs ++ [c]) = connects cs ++ connect c.
Proof.
  unfold connects. by rewrite fmap_app, concat_app.
Qed.

(** After the clients [cs] connected one after the other to a fresh server:
    the registry holds their writers, and each has been written the prompt,
    its welcome, and the announcements of those who came after it. *)
Lemma connects_effect (cs : list (Writer * str)) :
  NoDup cs.*1 →
  ∃ σ, exec init (connects cs) = Some σ
    ∧ broken σ = ∅
    ∧ connection_pool σ = list_to_set cs.*1
    ∧ (∀ u, u ∉ cs.*1 → handlers σ !! u = None ∧ outbox σ u = [])
    ∧ (∀ i w text, cs !! i = Some (w, text) →
         outbox σ w
         = [prompt_text; welcome_message (strip text) (Z.of_nat i)]
           ++ announcements (drop (S i) cs)).
Proof.
  induction cs as [|[w text] cs IH] using rev_ind; intros Hnd.
  { exists init. by split_and!. }
  rewrite fmap_app in Hnd. apply NoDup_app in Hnd as (Hnd & Hdisj & _).
  assert (w ∉ cs.*1) as Hw.
  { intros Hin. apply (Hdisj w Hin). simpl. left. }
  destruct (IH Hnd) as (σ & Hexec & Hbr & Hpool & Hfresh & Hout).
  destruct (Hfresh w Hw) as [Hfw How].
  destruct (connect_effect σ w text Hfw Hbr)
    as (σ' & Hexec' & Hpool' & Hbr' & Hh' & Houtw & Houtu).
  assert (size (connection_pool σ ∪ {[w]}) = S (length cs)) as Hsize.
  { rewrite Hpool, size_union, size_singleton, size_list_to_set by
      (done || (apply disjoint_singleton_r; by rewrite elem_of_list_to_set)).
    rewrite length_fmap. lia. }
  exists σ'. split_and!.
  - rewrite connects_snoc, exec_app, Hexec. done.
  - done.
  - rewrite Hpool', Hpool, fmap_app. simpl. by rewrite list_to_set_snoc_L.
  - intros u Hu. rewrite fmap_app in Hu. simpl in Hu.
    assert (u ≠ w) as Hne.
    { intros ->. apply Hu. apply elem_of_app. right. left. }
    assert (u ∉ cs.*1) as Hu'.
    { intros Hin. apply Hu. apply elem_of_app. by left. }
    destruct (Hfresh u Hu') as [Hfu Hou]. split.
    + rewrite Hh'. by rewrite lookup_insert_ne.
    + rewrite Houtu, Hou by done. rewrite decide_False; [done|].
      by rewrite Hpool, elem_of_list_to_set.
  - intros i u t Hi. apply lookup_snoc_Some in Hi as [[Hlt Hi]|[-> [= -> ->]]].
    + assert (u ∈ cs.*1) as Hu.
      { apply list_elem_of_fmap. exists (u, t). split; [done|].
        by eapply list_elem_of_lookup_2. }
      assert (u ≠ w) as Hne by (by intros ->).
      rewrite Houtu, (Hout i u t Hi) by done.
      rewrite decide_True by (by rewrite Hpool, elem_of_list_to_set).
      rewrite drop_app_le by lia. unfold announcements.
      by rewrite fmap_app, <-app_assoc.
    + rewrite Houtw, How, Hsize.
      rewrite drop_ge by (rewrite length_app; simpl; lia).
      simpl. do 3 f_equal. lia.
Qed.

(** C2: when clients connect one after the other to a fresh server, the
    client number [i + 1] is written, after the prompt, a welcome message
    that counts [i] other users; this is the size of the registry, the new
    writer included, less one.  The announcements of later arrivals follow.
    For a nickname without a newline, as every stripped line is, the welcome
    reads [There are i user(s) here beside you] in its fourth line. *)
Theorem welcome_counts_others (cs : list (Writer * str)) (i : nat)
    (w : Writer) (text : str) :
  NoDup cs.*1 →
  cs !! i = Some (w, text) →
  ∃ σi σ,
    exec init (connects (take (S i) cs)) = Some σi
    ∧ exec init (connects cs) = Some σ
    ∧ w ∈ connection_pool σi
    ∧ (Z.of_nat (size (connection_pool σi)) - 1 = Z.of_nat i)%Z
    ∧ outbox σi w
      = [prompt_text;
         welcome_message (strip text) (Z.of_nat (size (connection_pool σi)) - 1)]
    ∧ outbox σ w = outbox σi w ++ announcements (drop (S i) cs)
    ∧ (LF ∉ strip text →
       welcome_message (strip text) (Z.of_nat i)
       = welcome_shown (strip text) (Z.of_nat i)).
Proof.
  intros Hnd Hi.
  assert (NoDup (take (S i) cs).*1) as Hndi.
  { rewrite fmap_take. eapply sublist_NoDup; [done|apply sublist_take]. }
  assert (take (S i) cs !! i = Some (w, text)) as Hi'.
  { rewrite lookup_take_lt by lia. done. }
  destruct (connects_effect _ Hndi) as (σi & Hexi & _ & Hpooli & _ & Houti).
  destruct (connects_effect _ Hnd) as (σ & Hex & _ & _ & _ & Hout).
  assert (size (connection_pool σi) = S i) as Hsize.
  { rewrite Hpooli, size_list_to_set, length_fmap, length_take by done.
    apply lookup_lt_Some in Hi. lia. }
  specialize (Houti i w text Hi'). specialize (Hout i w text Hi).
  rewrite drop_ge in Houti
    by (rewrite length_take; apply lookup_lt_Some in Hi; lia).
  exists σi, σ. split_and!; try done.
  - rewrite Hpooli, elem_of_list_to_set.
    apply list_elem_of_fmap. exists (w, text). split; [done|].
    by eapply list_elem_of_lookup_2.
  - rewrite Hsize. lia.
  - rewrite Houti, Hsize. simpl. do 3 f_equal. lia.
  - by rewrite Hout, Houti.
  - apply welcome_message_text.
Qed.

Lemma welcome_counts_others_witness :
  ∃ σi σ,
    exec init (connects (take 2 [(1, bob_line); (2, alice_line); (3, carol_line)]))
    = Some σi
    ∧ exec init (connects [(1, bob_line); (2, alice_line); (3, carol_line)])
      = Some σ
    ∧ 2 ∈ connection_pool σi
    ∧ (Z.of_nat (size (connection_pool σi)) - 1 = Z.of_nat 1)%Z
    ∧ outbox σi 2
      = [prompt_text;
         welcome_message (strip alice_line)
           (Z.of_nat (size (connection_pool σi)) - 1)]
    ∧ outbox σ 2
      = outbox σi 2
        ++ announcements (drop 2 [(1, bob_line); (2, alice_line); (3, carol_line)])
    ∧ (LF ∉ strip alice_line →
       welcome_message (strip alice_line) (Z.of_nat 1)
       = welcome_shown (strip alice_line) (Z.of_nat 1)).
Proof.
  apply (welcome_counts_others
           [(1, bob_line); (2, alice_line); (3, carol_line)] 1 2 alice_line).
  - apply (bool_decide_unpack _). vm_compute. exact I.
  - reflexivity.
Defined.

(** The exchange given as an example: bob connects, then alice; alice says
    [hi], then quits; bob asks for the list. *)
Example bob_and_alice :
  let σ := world_of (two_clients
                     ++ [Deliver 2 (Line (py "hi" ++ [LF])); Deliver 2 Resumed;
                         Deliver 2 (Line (py "/quit" ++ [LF])); Deliver 2 Resumed;
                         Deliver 1 (Line (py "/list" ++ [LF]))]) in
  outbox σ 1
  = [prompt_text;
     welcome_message (py "bob") 0;
     py "alice just joined" ++ [LF; CR];
     py "[alice]: hi" ++ [LF; CR];
     py "alice just quit" ++ [LF; CR];
     py "===" ++ [LF; CR] ++ py "Currently connected users:"
     ++ [LF; CR] ++ py " - bob (you)" ++ [LF; CR] ++ py "===" ++ [LF; CR]]
  ∧ outbox σ 2 = [prompt_text; welcome_message (py "alice") 1]
  ∧ elements (connection_pool σ) = [1].
Proof. split_and!; vm_compute; reflexivity. Qed.

(** * Further properties of the code *)

(** ** [broadcast] in any world *)

(** The loop of [broadcast] gives each writer at most one chunk. *)
Lemma for_each_send_once w data us σ v :
  NoDup us →
  outbox (for_each us (send_unless w data) σ).2 v = outbox σ v
  ∨ (v ∈ us ∧ v ≠ w
     ∧ outbox (for_each us (send_unless w data) σ).2 v = outbox σ v ++ [data]).
Proof.
  revert σ. induction us as [|u us IH]; intros σ Hnd; [by left|].
  apply NoDup_cons in Hnd as [Hu Hnd].
  rewrite for_each_cons, bind_eq.
  destruct (decide (u = w)) as [->|Hne].
  { rewrite send_unless_sender.
    destruct (IH σ Hnd) as [H|(Hv & Hvw & H)]; [by left|].
    right. split_and!; [by right|done|done]. }
  destruct (decide (u ∈ broken σ)) as [Hbr|Hok].
  { rewrite send_unless_broken by done. by left. }
  rewrite send_unless_other by done.
  destruct (IH (deliver [u] data σ) Hnd) as [H|(Hv & Hvw & H)];
    rewrite H, outbox_deliver_one by done.
  - destruct (decide (v = u)) as [->|Hvu]; [|by left].
    right. split_and!; [left|done|done].
  - rewrite decide_False by (by intros ->).
    right. split_and!; [by right|done|done].
Qed.

(** The loop of [broadcast] ends normally or with the exception of a
    [write]. *)
Lemma for_each_send_result w data us σ :
  (for_each us (send_unless w data) σ).1 = Return tt
  ∨ (for_each us (send_unless w data) σ).1 = Raise WriteError.
Proof.
  revert σ. induction us as [|u us IH]; intros σ; [by left|].
  rewrite for_each_cons, bind_eq.
  destruct (decide (u = w)) as [->|Hne].
  { rewrite send_unless_sender. apply IH. }
  destruct (decide (u ∈ broken σ)) as [Hbr|Hok].
  { rewrite send_unless_broken by done. by right. }
  rewrite send_unless_other by done. apply IH.
Qed.

(** [broadcast], whatever the writes do: it ends normally or with the
    exception of a [write]; it changes nothing but what was written; the
    sender and the writers outside the registry are written nothing; each
    member is written the chunk once at most. *)
Theorem broadcast_any_world (σ : World) (w v : Writer) (message : str) :
  ((broadcast w message σ).1 = Return tt
   ∨ (broadcast w message σ).1 = Raise WriteError)
  ∧ only_written σ (broadcast w message σ).2
  ∧ outbox (broadcast w message σ).2 w = outbox σ w
  ∧ (v ∉ connection_pool σ →
     outbox (broadcast w message σ).2 v = outbox σ v)
  ∧ (outbox (broadcast w message σ).2 v = outbox σ v
     ∨ outbox (broadcast w message σ).2 v = outbox σ v ++ [chunk message]).
Proof.
  split_and!.
  - rewrite broadcast_eq. apply for_each_send_result.
  - apply writes_only_broadcast.
  - apply broadcast_sender.
  - intros Hv. rewrite broadcast_eq.
    destruct (for_each_send_once w (message ++ [LF; CR])
                (elements (connection_pool σ)) σ v (NoDup_elements _))
      as [H|(Hin & _)]; [done|].
    by apply elem_of_elements in Hin.
  - rewrite broadcast_eq.
    destruct (for_each_send_once w (message ++ [LF; CR])
                (elements (connection_pool σ)) σ v (NoDup_elements _))
      as [H|(_ & _ & H)]; [by left|by right].
Qed.

(** ** [list_users] and [send_welcome_message] in any world *)

(** Building the listing changes nothing. *)
Lemma for_fold_list_state w us message σ :
  (for_fold us message (list_line w) σ).2 = σ.
Proof.
  revert message. induction us as [|u us IH]; intros message; [done|].
  change (for_fold (u :: us) message (list_line w))
    with (acc ← list_line w message u; for_fold us acc (list_line w)).
  rewrite bind_eq. unfold list_line at 1. rewrite bind_eq.
  unfold get_nickname. destruct (nickname σ !! u); [apply IH|done].
Qed.

Lemma write_state u data σ :
  (write u data σ).2 = σ ∨ (write u data σ).2 = deliver [u] data σ.
Proof.
  destruct (decide (u ∈ broken σ)).
  - left. by rewrite write_broken.
  - right. by rewrite write_ok.
Qed.

Lemma list_users_state w σ :
  (list_users w σ).2 = σ ∨ ∃ data, (list_users w σ).2 = deliver [w] data σ.
Proof.
  rewrite list_users_eq, bind_eq.
  pose proof (for_fold_list_state w (elements (connection_pool σ))
                ((py "===" ++ [LF; CR]) ++ py "Currently connected users:") σ)
    as Hst.
  destruct (for_fold _ _ _ σ) as [[message|e] σ']; simpl in Hst; subst σ'.
  - destruct (write_state w ((message ++ [LF; CR] ++ py "===") ++ [LF; CR]) σ)
      as [H|H]; [by left|right; by eexists].
  - by left.
Qed.

Lemma send_welcome_message_state w σ :
  (send_welcome_message w σ).2 = σ
  ∨ ∃ data, (send_welcome_message w σ).2 = deliver [w] data σ.
Proof.
  unfold send_welcome_message. rewrite bind_eq. unfold get_nickname.
  destruct (nickname σ !! w) as [nick|]; [|by left].
  rewrite bind_eq. simpl.
  destruct (write_state w
              (welcome_message nick (Z.of_nat (size (connection_pool σ)) - 1)) σ)
    as [H|H]; [by left|right; by eexists].
Qed.

Lemma outbox_deliver_other u data σ v :
  v ≠ u → outbox (deliver [u] data σ) v = outbox σ v.
Proof.
  intros Hne. destruct (decide (u ∈ broken σ)) as [Hbr|Hok].
  - unfold deliver, write. simpl. by rewrite decide_True.
  - rewrite outbox_deliver_one by done. by rewrite decide_False.
Qed.

(** [list_users] and [send_welcome_message] write to the requester alone:
    in any world, and whether they end normally or not, they leave the
    registry, the nicknames and what every other writer was written as they
    were. *)
Theorem answers_go_to_requester (σ : World) (w v : Writer) :
  v ≠ w →
  only_written σ (list_users w σ).2
  ∧ outbox (list_users w σ).2 v = outbox σ v
  ∧ only_written σ (send_welcome_message w σ).2
  ∧ outbox (send_welcome_message w σ).2 v = outbox σ v.
Proof.
  intros Hne. split_and!.
  - apply writes_only_list_users.
  - destruct (list_users_state w σ) as [->|[data ->]]; [done|].
    by apply outbox_deliver_other.
  - apply writes_only_send_welcome_message.
  - destruct (send_welcome_message_state w σ) as [->|[data ->]]; [done|].
    by apply outbox_deliver_other.
Qed.

Lemma answers_go_to_requester_witness :
  only_written (world_of two_clients) (list_users 2 (world_of two_clients)).2
  ∧ outbox (list_users 2 (world_of two_clients)).2 1
    = outbox (world_of two_clients) 1
  ∧ only_written (world_of two_clients)
      (send_welcome_message 2 (world_of two_clients)).2
  ∧ outbox (send_welcome_message 2 (world_of two_clients)).2 1
    = outbox (world_of two_clients) 1.
Proof. apply (answers_go_to_requester (world_of two_clients) 2 1). lia. Defined.

(** ** How the segments end *)

Lemma ok_or_write_error_bind {A B} (m : M A) (k : A → M B) σ :
  ok_or_write_error (m σ).1 →
  (∀ a, (m σ).1 = Return a → ok_or_write_error (k a (m σ).2).1) →
  ok_or_write_error ((m ≫= k) σ).1.
Proof.
  intros Hm Hk. rewrite bind_eq.
  destruct (m σ) as [[a|e] σ']; simpl in *; [by apply Hk|].
  destruct Hm as [[a Ha]|[= ->]]; [done|by right].
Qed.

Lemma broadcast_result w message σ : ok_or_write_error (broadcast w message σ).1.
Proof.
  rewrite broadcast_eq.
  destruct (for_each_send_result w (message ++ [LF; CR])
              (elements (connection_pool σ)) σ) as [H|H]; rewrite H.
  - left. by eexists.
  - by right.
Qed.

Lemma write_result u data σ : ok_or_write_error (write u data σ).1.
Proof.
  destruct (decide (u ∈ broken σ)).
  - rewrite write_broken by done. by right.
  - rewrite write_ok by done. left. by eexists.
Qed.

Lemma announce_result w (message_of : str → str) σ :
  is_Some (nickname σ !! w) →
  ok_or_write_error
    ((nick ← get_nickname w; broadcast w (message_of nick)) σ).1.
Proof.
  intros [nick Hn]. rewrite bind_eq, (get_nickname_some _ _ nick) by done.
  apply broadcast_result.
Qed.

Lemma list_users_result w σ :
  named σ → ok_or_write_error (list_users w σ).1.
Proof.
  intros Hn. rewrite list_users_eq, bind_eq, for_fold_list.
  - apply write_result.
  - intros u Hu. apply Hn. by apply elem_of_elements.
Qed.

Lemma send_welcome_message_result w σ :
  is_Some (nickname σ !! w) → ok_or_write_error (send_welcome_message w σ).1.
Proof.
  intros [nick Hn]. unfold send_welcome_message.
  rewrite bind_eq, (get_nickname_some _ _ nick) by done.
  rewrite bind_eq. simpl. apply write_result.
Qed.

Lemma on_read_result w r σ :
  is_Some (nickname σ !! w) → named σ → ok_or_write_error (on_read w r σ).1.
Proof.
  intros Hw Hn. destruct r as [text|]; unfold on_read.
  - repeat case_decide; apply ok_or_write_error_bind;
      try (intros; left; by eexists).
    + by apply (announce_result w (λ nick, nick ++ py " just quit")).
    + by apply list_users_result.
    + by apply (announce_result w
                  (λ nick, py "[" ++ nick ++ py "]: " ++ strip text)).
  - apply ok_or_write_error_bind; [|intros; left; by eexists].
    by apply (announce_result w (λ nick, nick ++ py " just quit")).
Qed.

(** The handshake sets the nickname before it reads it: it can only end
    with the exception of a [write]. *)
Lemma handshake_result w text σ : ok_or_write_error (handshake w text σ).1.
Proof.
  rewrite handshake_eq.
  assert (is_Some (nickname (registered σ w (strip text)) !! w)) as Hn.
  { simpl. rewrite lookup_insert_eq. by eexists. }
  apply ok_or_write_error_bind; [by apply send_welcome_message_result|].
  intros [] _.
  apply (announce_result w (λ nick, nick ++ py " just joined")).
  destruct (writes_only_send_welcome_message w (registered σ w (strip text)))
    as (_ & -> & _).
  done.
Qed.

(** ** What a segment touches *)

Lemma touches_only_refl w σ : touches_only w σ σ.
Proof. by repeat split. Qed.

Lemma touches_only_trans w σ1 σ2 σ3 :
  touches_only w σ1 σ2 → touches_only w σ2 σ3 → touches_only w σ1 σ3.
Proof.
  intros (Hh & Hb & Hn & Hp) (Hh' & Hb' & Hn' & Hp'). split_and!.
  - congruence.
  - congruence.
  - intros v Hv. by rewrite Hn', Hn.
  - intros v Hv. by rewrite Hp', Hp.
Qed.

Lemma only_written_touches_only w σ σ' :
  only_written σ σ' → touches_only w σ σ'.
Proof. intros (Hp & Hn & _ & Hb & Hh). split_and!; try done; intros v _; by rewrite ?Hp, ?Hn. Qed.

Lemma touches_only_bind {A B} w (m : M A) (k : A → M B) σ :
  touches_only w σ (m σ).2 →
  (∀ a σ', touches_only w σ' (k a σ').2) →
  touches_only w σ ((m ≫= k) σ).2.
Proof.
  intros Hm Hk. rewrite bind_eq.
  destruct (m σ) as [[a|e] σ']; simpl in *; [|done].
  eapply touches_only_trans; [done|apply Hk].
Qed.

Lemma touches_only_leave w σ : touches_only w σ (leave w σ).2.
Proof. by repeat split. Qed.

Lemma touches_only_after_drain w σ : touches_only w σ (after_drain w σ).2.
Proof.
  unfold after_drain. rewrite bind_eq. simpl.
  case_bool_decide; [apply touches_only_leave|apply touches_only_refl].
Qed.

Lemma touches_only_after_closed w σ : touches_only w σ (after_closed w σ).2.
Proof.
  unfold after_closed, remove_user_from_pool. rewrite !bind_eq. simpl.
  case_decide; simpl; [|apply touches_only_refl].
  split_and!; try done. intros v Hv. simpl.
  rewrite elem_of_difference, elem_of_singleton. tauto.
Qed.

Lemma touches_only_registered w nick σ : touches_only w σ (registered σ w nick).
Proof.
  split_and!; try done; intros v Hv; simpl.
  - by rewrite lookup_insert_ne.
  - rewrite elem_of_union, elem_of_singleton. tauto.
Qed.

Lemma touches_only_handshake w text σ : touches_only w σ (handshake w text σ).2.
Proof.
  rewrite handshake_eq.
  eapply touches_only_trans; [apply touches_only_registered|].
  apply only_written_touches_only.
  apply (writes_only_bind (send_welcome_message w) (λ _, broadcast_user_join w)).
  - apply writes_only_send_welcome_message.
  - intros _. apply writes_only_broadcast_user_join.
Qed.

Lemma touches_only_on_read w r σ : touches_only w σ (on_read w r σ).2.
Proof. apply only_written_touches_only, writes_only_on_read. Qed.

Lemma segment_touches_only w p o m σ :
  segment w p o = Some m → touches_only w σ (m σ).2.
Proof.
  intros Hm.
  destruct p, o; unfold segment in Hm; try discriminate Hm;
    injection Hm as <-; try apply touches_only_refl.
  - apply touches_only_bind; [apply touches_only_handshake|].
    intros; apply touches_only_refl.
  - apply touches_only_bind; [apply (touches_only_on_read w (Data text))|].
    intros [] σ'; [apply touches_only_refl|apply touches_only_leave].
  - apply touches_only_bind; [apply (touches_only_on_read w Incomplete)|].
    intros [] σ'; [apply touches_only_refl|apply touches_only_leave].
  - apply touches_only_after_drain.
  - apply touches_only_after_closed.
Qed.

Lemma run_handlers w (m : M pc) σ :
  ∃ p, handlers (run w m σ) = <[w := p]> (handlers (m σ).2)
       ∧ (p = match (m σ).1 with Return p' => p' | Raise e => Crashed e end)
       ∧ connection_pool (run w m σ) = connection_pool (m σ).2
       ∧ nickname (run w m σ) = nickname (m σ).2
       ∧ broken (run w m σ) = broken (m σ).2
       ∧ written (run w m σ) = written (m σ).2.
Proof. unfold run. destruct (m σ) as [[p|e] σ']; eexists; by split_and!. Qed.

(** How the segment of [w] ends, in a world where the members have nicknames
    and [w] is a member if its handler is past the handshake: with the next
    state, [w] being a member unless the handler has finished, or with an
    exception that is neither [KeyError] nor [AttributeError]. *)
Lemma segment_member w p o m σ :
  segment w p o = Some m →
  named σ →
  (p = AwaitLine ∨ p = AwaitDrain ∨ p = AwaitClosed → w ∈ connection_pool σ) →
  match (m σ).1 with
  | Return p' =>
      ((p' = AwaitLine ∨ p' = AwaitDrain ∨ p' = AwaitClosed)
       ∧ w ∈ connection_pool (m σ).2)
      ∨ (p' = Finished ∧ w ∉ connection_pool (m σ).2)
  | Raise e => e = WriteError ∨ e = IncompleteReadError ∨ e = OtherError
  end.
Proof.
  intros Hm Hnamed Hin.
  assert (∀ r, (p = AwaitLine → 
     match ((c ← on_read w r;
             match c with Break => leave w | Drain => ret AwaitDrain end) σ).1 with
     | Return p' =>
         ((p' = AwaitLine ∨ p' = AwaitDrain ∨ p' = AwaitClosed)
          ∧ w ∈ connection_pool
                ((c ← on_read w r;
                  match c with Break => leave w | Drain => ret AwaitDrain end) σ).2)
         ∨ (p' = Finished
            ∧ w ∉ connection_pool
                ((c ← on_read w r;
                  match c with Break => leave w | Drain => ret AwaitDrain end) σ).2)
     | Raise e => e = WriteError ∨ e = IncompleteReadError ∨ e = OtherError
     end)) as Hloop.
  { intros r ->. specialize (Hin (or_introl eq_refl)).
    pose proof (on_read_result w r σ (Hnamed w Hin) Hnamed) as Hres.
    destruct (writes_only_on_read w r σ) as (Hp & _).
    rewrite bind_eq.
    destruct (on_read w r σ) as [[[]|e] σ']; simpl in *.
    - left. split; [tauto|by rewrite Hp].
    - left. split; [tauto|by rewrite Hp].
    - destruct Hres as [[a Ha]|[= ->]]; [done|by left]. }
  destruct p, o; unfold segment in Hm; try discriminate Hm;
    injection Hm as <-; try (simpl; tauto).
  - pose proof (handshake_result w text σ) as Hres.
    destruct (handshake_registers w text σ) as [Hp _].
    rewrite bind_eq.
    destruct (handshake w text σ) as [[[]|e] σ']; simpl in *.
    + left. split; [tauto|]. rewrite Hp.
      apply elem_of_union_r. by apply elem_of_singleton.
    + destruct Hres as [[a Ha]|[= ->]]; [done|by left].
  - by apply (Hloop (Data text)).
  - by apply (Hloop Incomplete).
  - unfold after_drain. rewrite bind_eq. simpl.
    case_bool_decide; simpl; left; (split; [tauto|apply Hin; tauto]).
  - unfold after_closed. rewrite bind_eq, remove_member by (apply Hin; tauto).
    simpl. right. split; [done|].
    rewrite elem_of_difference, elem_of_singleton. tauto.
Qed.

(** ** The registry agrees with the handlers *)

Lemma segment_ends_well w p o m σ :
  segment w p o = Some m →
  named σ →
  (p = AwaitLine ∨ p = AwaitDrain ∨ p = AwaitClosed → w ∈ connection_pool σ) →
  ends_well w (m σ).1 (m σ).2.
Proof.
  intros Hm Hnamed Hin.
  pose proof (segment_member w p o m σ Hm Hnamed Hin) as H.
  unfold ends_well. destruct (m σ).1 as [p'|e].
  - destruct H as [[[->|[->| ->]] H]|[-> H]]; done.
  - destruct H as [->|[->| ->]]; done.
Qed.

Lemma run_coherent w (m : M pc) σ :
  touches_only w σ (m σ).2 →
  ends_well w (m σ).1 (m σ).2 →
  coherent σ → no_internal_error σ →
  coherent (run w m σ) ∧ no_internal_error (run w m σ).
Proof.
  intros (Hh & _ & _ & Hp) Hend Hco Hno.
  destruct (run_handlers w m σ) as (p & Hh' & Hpeq & Hp' & _).
  split.
  - intros v. rewrite Hh', Hh, Hp'.
    destruct (decide (v = w)) as [->|Hne].
    + rewrite lookup_insert_eq. subst p. unfold ends_well in Hend.
      destruct (m σ).1 as [[]|e]; done.
    + rewrite lookup_insert_ne by done. specialize (Hco v).
      destruct (handlers σ !! v) as [[]|]; by rewrite ?Hp.
  - intros v e. rewrite Hh', Hh.
    destruct (decide (v = w)) as [->|Hne].
    + rewrite lookup_insert_eq. intros [= Hpe]. subst p.
      unfold ends_well in Hend.
      destruct (m σ).1 as [[]|e']; try done. by injection Hpe as ->.
    + rewrite lookup_insert_ne by done. apply Hno.
Qed.

Lemma act_coherent σ a σ' :
  coherent σ → named σ → no_internal_error σ → act σ a = Some σ' →
  coherent σ' ∧ no_internal_error σ'.
Proof.
  intros Hco Hnamed Hno Hact. destruct a as [w|w o|w|w]; simpl in Hact.
  - destruct (handlers σ !! w) eqn:Hw; [done|]. injection Hact as <-.
    apply run_coherent; try done.
    + apply only_written_touches_only.
      apply (writes_only_bind (prompt w) (λ _, ret AwaitNickname)).
      * apply writes_only_write.
      * intros _. apply writes_only_ret.
    + specialize (Hco w). rewrite Hw in Hco.
      rewrite bind_eq. unfold prompt.
      destruct (decide (w ∈ broken σ)).
      * by rewrite write_broken.
      * rewrite write_ok by done. simpl. by rewrite deliver_pool.
  - unfold step in Hact.
    destruct (handlers σ !! w) as [p|] eqn:Hpc; [|done]. simpl in Hact.
    destruct (segment w p o) as [m|] eqn:Hm; [|done]. injection Hact as <-.
    apply run_coherent; try done.
    + by eapply segment_touches_only.
    + eapply segment_ends_well; [done|done|].
      specialize (Hco w). rewrite Hpc in Hco. by intros [->|[->| ->]].
  - by injection Hact as <-.
  - by injection Hact as <-.
Qed.

Lemma exec_coherent acts : ∀ σ σ',
  coherent σ → named σ → no_internal_error σ → exec σ acts = Some σ' →
  coherent σ' ∧ named σ' ∧ no_internal_error σ'.
Proof.
  induction acts as [|a acts IH]; intros σ σ' Hco Hnamed Hno Hexec;
    simpl in Hexec.
  - by injection Hexec as <-.
  - destruct (act σ a) as [σ1|] eqn:Hact; [|done]. simpl in Hexec.
    destruct (act_coherent σ a σ1) as [Hco1 Hno1]; try done.
    eapply IH; [done| |done|done]. by eapply named_act.
Qed.

Lemma reachable_sane σ :
  reachable σ → coherent σ ∧ named σ ∧ no_internal_error σ.
Proof.
  intros [acts Hexec]. eapply exec_coherent; [| | |done].
  - intros w. simpl. rewrite lookup_empty. apply not_elem_of_empty.
  - apply named_init.
  - intros w e. simpl. by rewrite lookup_empty.
Qed.

(** In every world the server reaches, the registry and the handlers agree:
    a writer whose handler is in the loop, awaits [drain] or awaits
    [wait_closed] is a member; a writer whose handler still awaits the
    nickname, or has returned, or that has no handler, is not. *)
Theorem registry_follows_handlers (σ : World) (w : Writer) :
  reachable σ →
  (handlers σ !! w = Some AwaitLine ∨ handlers σ !! w = Some AwaitDrain
   ∨ handlers σ !! w = Some AwaitClosed → w ∈ connection_pool σ)
  ∧ (handlers σ !! w = Some AwaitNickname ∨ handlers σ !! w = Some Finished
     ∨ handlers σ !! w = None → w ∉ connection_pool σ).
Proof.
  intros (Hco & _ & _)%reachable_sane. specialize (Hco w).
  split; intros [H|[H|H]]; by rewrite H in Hco.
Qed.

Lemma two_clients_reachable : reachable (world_of two_clients).
Proof. exists two_clients. vm_compute. reflexivity. Qed.

Lemma registry_follows_handlers_witness :
  (handlers (world_of two_clients) !! 2 = Some AwaitLine
   ∨ handlers (world_of two_clients) !! 2 = Some AwaitDrain
   ∨ handlers (world_of two_clients) !! 2 = Some AwaitClosed →
   2 ∈ connection_pool (world_of two_clients))
  ∧ (handlers (world_of two_clients) !! 2 = Some AwaitNickname
     ∨ handlers (world_of two_clients) !! 2 = Some Finished
     ∨ handlers (world_of two_clients) !! 2 = None →
     2 ∉ connection_pool (world_of two_clients)).
Proof.
  apply (registry_follows_handlers (world_of two_clients) 2).
  apply two_clients_reachable.
Defined.

(** In every world the server reaches, no handler has ended with [KeyError]
    or [AttributeError]: the removal at the end of [handle_connection] always
    finds its writer in the registry, and every [nickname] that is read has
    been set.  A handler ends with an exception only through a [write], a
    read or an awaited call that raised. *)
Theorem handlers_never_fail_inside (σ : World) (w : Writer) (e : exn) :
  reachable σ →
  handlers σ !! w = Some (Crashed e) →
  e = WriteError ∨ e = IncompleteReadError ∨ e = OtherError.
Proof.
  intros (_ & _ & Hno)%reachable_sane Hw.
  destruct (Hno w e Hw) as [Hk Ha]. destruct e; tauto.
Qed.

Lemma handlers_never_fail_inside_witness :
  IncompleteReadError = WriteError
  ∨ IncompleteReadError = IncompleteReadError
  ∨ IncompleteReadError = OtherError.
Proof.
  apply (handlers_never_fail_inside
           (world_of [Accept 1; Deliver 1 IncompleteRead]) 1 IncompleteReadError).
  - exists [Accept 1; Deliver 1 IncompleteRead]. vm_compute. reflexivity.
  - vm_compute. reflexivity.
Defined.

(** ** What the handler of one writer does to another writer *)

Lemma broadcast_outside w message σ v :
  v ∉ connection_pool σ →
  outbox (broadcast w message σ).2 v = outbox σ v.
Proof.
  intros Hv. rewrite broadcast_eq.
  destruct (for_each_send_once w (message ++ [LF; CR])
              (elements (connection_pool σ)) σ v (NoDup_elements _))
    as [H|(Hin & _)]; [done|].
  by apply elem_of_elements in Hin.
Qed.

Lemma list_users_other w σ v :
  v ≠ w → outbox (list_users w σ).2 v = outbox σ v.
Proof.
  intros Hne. destruct (list_users_state w σ) as [->|[data ->]]; [done|].
  by apply outbox_deliver_other.
Qed.

Lemma announce_outside w (message_of : str → str) σ v :
  v ∉ connection_pool σ →
  outbox ((nick ← get_nickname w; broadcast w (message_of nick)) σ).2 v
  = outbox σ v.
Proof.
  intros Hv. rewrite bind_eq. unfold get_nickname.
  destruct (nickname σ !! w) as [nick|]; [|done].
  by apply broadcast_outside.
Qed.

Lemma then_ret_outbox {A} (m : M unit) (c : A) σ v :
  outbox (m σ).2 v = outbox σ v →
  outbox ((m ;; ret c) σ).2 v = outbox σ v.
Proof. intros Hm. rewrite bind_eq. by destruct (m σ) as [[[]|e] σ']. Qed.

Lemma on_read_outside w r σ v :
  v ≠ w → v ∉ connection_pool σ → outbox (on_read w r σ).2 v = outbox σ v.
Proof.
  intros Hne Hv. destruct r as [text|]; unfold on_read.
  - repeat case_decide; apply then_ret_outbox.
    + by apply (announce_outside w (λ nick, nick ++ py " just quit")).
    + by apply list_users_other.
    + by apply (announce_outside w
                  (λ nick, py "[" ++ nick ++ py "]: " ++ strip text)).
  - apply then_ret_outbox.
    by apply (announce_outside w (λ nick, nick ++ py " just quit")).
Qed.

Lemma handshake_outside w text σ v :
  v ≠ w → v ∉ connection_pool σ →
  outbox (handshake w text σ).2 v = outbox σ v.
Proof.
  intros Hne Hv. rewrite handshake_eq, bind_eq.
  assert (v ∉ connection_pool (registered σ w (strip text))) as Hv'.
  { simpl. rewrite elem_of_union, elem_of_singleton. tauto. }
  pose proof (send_welcome_message_state w (registered σ w (strip text))) as Hst.
  destruct (send_welcome_message w (registered σ w (strip text)))
    as [[[]|e] σ']; simpl in Hst.
  - transitivity (outbox σ' v).
    + apply (announce_outside w (λ nick, nick ++ py " just joined")).
      destruct Hst as [->|[data ->]]; [done|by rewrite deliver_pool].
    + destruct Hst as [->|[data ->]]; [done|].
      by rewrite outbox_deliver_other.
  - simpl. destruct Hst as [->|[data ->]]; [done|].
    by rewrite outbox_deliver_other.
Qed.

Lemma leave_written w σ : written (leave w σ).2 = written σ.
Proof. reflexivity. Qed.

(** A segment of the handler of [w] writes nothing to a writer other than
    [w] that is not in the registry. *)
Lemma segment_outside w p o m σ v :
  segment w p o = Some m → v ≠ w → v ∉ connection_pool σ →
  outbox (m σ).2 v = outbox σ v.
Proof.
  intros Hm Hne Hv.
  assert (∀ r, outbox ((c ← on_read w r;
                        match c with Break => leave w | Drain => ret AwaitDrain end) σ).2 v
               = outbox σ v) as Hloop.
  { intros r. pose proof (on_read_outside w r σ v Hne Hv) as Hr.
    rewrite bind_eq. by destruct (on_read w r σ) as [[[]|e] σ']. }
  destruct p, o; unfold segment in Hm; try discriminate Hm;
    injection Hm as <-; try done.
  - apply then_ret_outbox. by apply handshake_outside.
  - apply (Hloop (Data text)).
  - apply (Hloop Incomplete).
  - unfold after_drain. rewrite bind_eq. simpl. by case_bool_decide.
  - unfold after_closed, remove_user_from_pool. rewrite !bind_eq. simpl.
    by case_decide.
Qed.

(** ** Once [handle_connection] is over *)

Lemma segment_over w p o : over p → segment w p o = None.
Proof. intros [->|[e ->]]; by destruct o. Qed.

Lemma act_over σ a σ' w p :
  act σ a = Some σ' → handlers σ !! w = Some p → over p →
  handlers σ' !! w = Some p
  ∧ (w ∈ connection_pool σ' ↔ w ∈ connection_pool σ)
  ∧ nickname σ' !! w = nickname σ !! w
  ∧ (w ∉ connection_pool σ → outbox σ' w = outbox σ w).
Proof.
  intros Hact Hw Hover. destruct a as [w'|w' o|w'|w']; simpl in Hact.
  - destruct (handlers σ !! w') eqn:Hw'; [done|]. injection Hact as <-.
    assert (w ≠ w') as Hne by (intros ->; congruence).
    destruct (run_handlers w' (prompt w' ;; ret AwaitNickname) σ)
      as (p' & Hh & _ & Hp & Hn & _ & Hwr).
    destruct (writes_only_bind (prompt w') (λ _, ret AwaitNickname)
                (writes_only_write _ _) (λ _, writes_only_ret _) σ)
      as (Hp' & Hn' & _ & _ & Hh').
    split_and!.
    + by rewrite Hh, Hh', lookup_insert_ne.
    + by rewrite Hp, Hp'.
    + by rewrite Hn, Hn'.
    + intros _. unfold outbox. rewrite Hwr.
      rewrite bind_eq. unfold prompt.
      pose proof (outbox_deliver_other w' prompt_text σ w Hne) as Hd.
      destruct (write_state w' prompt_text σ) as [Hs|Hs];
        unfold prompt_text in *;
        destruct (write w' (py "> Choose your nickname: ") σ) as [[[]|e] σ1];
        simpl in *; subst σ1; done.
  - unfold step in Hact.
    destruct (handlers σ !! w') as [p'|] eqn:Hpc; [|done]. simpl in Hact.
    destruct (segment w' p' o) as [m|] eqn:Hm; [|done]. injection Hact as <-.
    assert (w ≠ w') as Hne.
    { intros ->. rewrite Hw in Hpc. injection Hpc as <-.
      by rewrite segment_over in Hm. }
    destruct (run_handlers w' m σ) as (q & Hh & _ & Hp & Hn & _ & Hwr).
    destruct (segment_touches_only w' p' o m σ Hm) as (Hh' & _ & Hn' & Hp').
    split_and!.
    + by rewrite Hh, Hh', lookup_insert_ne.
    + by rewrite Hp, Hp'.
    + by rewrite Hn, Hn'.
    + intros Hout. unfold outbox. rewrite Hwr.
      by apply (segment_outside w' p' o m σ w).
  - injection Hact as <-. by split_and!.
  - injection Hact as <-. by split_and!.
Qed.

Lemma exec_over (σ σ' : World) (acts : list action) (w : Writer) (p : pc) :
  exec σ acts = Some σ' →
  handlers σ !! w = Some p → over p →
  handlers σ' !! w = Some p
  ∧ (w ∈ connection_pool σ' ↔ w ∈ connection_pool σ)
  ∧ nickname σ' !! w = nickname σ !! w
  ∧ (w ∉ connection_pool σ → outbox σ' w = outbox σ w).
Proof.
  revert σ. induction acts as [|a acts IH]; intros σ Hexec Hw Hover;
    simpl in Hexec.
  - injection Hexec as <-. by split_and!.
  - destruct (act σ a) as [σ1|] eqn:Hact; [|done]. simpl in Hexec.
    destruct (act_over σ a σ1 w p Hact Hw Hover) as (Hw1 & Hp1 & Hn1 & Ho1).
    destruct (IH σ1 Hexec Hw1 Hover) as (Hw' & Hp' & Hn' & Ho').
    split_and!; try done.
    + by rewrite Hp', Hp1.
    + by rewrite Hn', Hn1.
    + intros Hout. rewrite Ho', Ho1; [done|done|by rewrite Hp1].
Qed.

(** Once the handler of [w] is over, normally or not, it stays as it is
    through everything the server does later: no call it awaited resumes it,
    [w] is a member afterwards if and only if it was one then (a handler
    that ended with an exception after the handshake leaves its writer in
    the registry for good), its nickname does not change, and if [w] is not
    a member nothing is written to it any more. *)
Theorem over_is_final (σ σ' : World) (acts : list action) (w : Writer) (p : pc) :
  exec σ acts = Some σ' →
  handlers σ !! w = Some p → over p →
  handlers σ' !! w = Some p
  ∧ (∀ o, step σ' w o = None)
  ∧ (w ∈ connection_pool σ' ↔ w ∈ connection_pool σ)
  ∧ nickname σ' !! w = nickname σ !! w
  ∧ (w ∉ connection_pool σ → outbox σ' w = outbox σ w).
Proof.
  intros Hexec Hw Hover.
  destruct (exec_over σ σ' acts w p Hexec Hw Hover) as (Hw' & Hp' & Hn' & Ho').
  split_and!; try done.
  intros o. unfold step. rewrite Hw'. simpl.
  by rewrite segment_over.
Qed.

Lemma over_is_final_witness :
  handlers (world_of (two_clients
              ++ [Deliver 2 (Line (py "/quit" ++ [LF])); Deliver 2 Resumed;
                  Deliver 1 (Line (py "hi" ++ [LF]))])) !! 2 = Some Finished
  ∧ (∀ o, step (world_of (two_clients
              ++ [Deliver 2 (Line (py "/quit" ++ [LF])); Deliver 2 Resumed;
                  Deliver 1 (Line (py "hi" ++ [LF]))])) 2 o = None)
  ∧ (2 ∈ connection_pool (world_of (two_clients
              ++ [Deliver 2 (Line (py "/quit" ++ [LF])); Deliver 2 Resumed;
                  Deliver 1 (Line (py "hi" ++ [LF]))]))
     ↔ 2 ∈ connection_pool alice_gone)
  ∧ nickname (world_of (two_clients
              ++ [Deliver 2 (Line (py "/quit" ++ [LF])); Deliver 2 Resumed;
                  Deliver 1 (Line (py "hi" ++ [LF]))])) !! 2
    = nickname alice_gone !! 2
  ∧ (2 ∉ connection_pool alice_gone →
     outbox (world_of (two_clients
              ++ [Deliver 2 (Line (py "/quit" ++ [LF])); Deliver 2 Resumed;
                  Deliver 1 (Line (py "hi" ++ [LF]))])) 2
     = outbox alice_gone 2).
Proof.
  apply (over_is_final alice_gone _ [Deliver 1 (Line (py "hi" ++ [LF]))] 2 Finished).
  - vm_compute. reflexivity.
  - vm_compute. reflexivity.
  - by left.
Defined.

(** ** The nickname after the handshake *)

Lemma segment_not_back w p o m σ :
  segment w p o = Some m → (m σ).1 ≠ Return AwaitNickname.
Proof.
  intros Hm.
  assert (∀ r, ((c ← on_read w r;
                 match c with Break => leave w | Drain => ret AwaitDrain end) σ).1
               ≠ Return AwaitNickname) as Hloop.
  { intros r. rewrite bind_eq. by destruct (on_read w r σ) as [[[]|e] σ']. }
  destruct p, o; unfold segment in Hm; try discriminate Hm;
    injection Hm as <-; try done.
  - rewrite bind_eq. by destruct (handshake w text σ) as [[[]|e] σ'].
  - apply (Hloop (Data text)).
  - apply (Hloop Incomplete).
  - unfold after_drain. rewrite bind_eq. simpl. by case_bool_decide.
  - unfold after_closed, remove_user_from_pool. rewrite !bind_eq. simpl.
    by case_decide.
Qed.

Lemma act_past_handshake σ a σ' w p :
  act σ a = Some σ' → handlers σ !! w = Some p → p ≠ AwaitNickname →
  nickname σ' !! w = nickname σ !! w
  ∧ ∃ p', handlers σ' !! w = Some p' ∧ p' ≠ AwaitNickname.
Proof.
  intros Hact Hw Hp. destruct a as [w'|w' o|w'|w']; simpl in Hact.
  - destruct (handlers σ !! w') eqn:Hw'; [done|]. injection Hact as <-.
    assert (w ≠ w') as Hne by (intros ->; congruence).
    destruct (run_handlers w' (prompt w' ;; ret AwaitNickname) σ)
      as (p' & Hh & _ & _ & Hn & _).
    destruct (writes_only_bind (prompt w') (λ _, ret AwaitNickname)
                (writes_only_write _ _) (λ _, writes_only_ret _) σ)
      as (_ & Hn' & _ & _ & Hh').
    split; [by rewrite Hn, Hn'|]. exists p.
    by rewrite Hh, Hh', lookup_insert_ne.
  - unfold step in Hact.
    destruct (handlers σ !! w') as [q|] eqn:Hpc; [|done]. simpl in Hact.
    destruct (segment w' q o) as [m|] eqn:Hm; [|done]. injection Hact as <-.
    destruct (run_handlers w' m σ) as (q' & Hh & Hq' & _ & Hn & _).
    destruct (segment_touches_only w' q o m σ Hm) as (Hh' & _ & Hn' & _).
    destruct (decide (w = w')) as [<-|Hne].
    + rewrite Hw in Hpc. injection Hpc as <-. split.
      * rewrite Hn.
        destruct (segment_no_new_member w p o m σ Hm)
          as [(text & -> & _)|[_ ->]]; done.
      * exists q'. rewrite Hh, lookup_insert_eq. split; [done|]. subst q'.
        pose proof (segment_not_back w p o m σ Hm) as Hnb.
        destruct (m σ).1 as [p'|e]; [congruence|done].
    + split; [by rewrite Hn, Hn'|]. exists p.
      by rewrite Hh, Hh', lookup_insert_ne.
  - injection Hact as <-. split; [done|by exists p].
  - injection Hact as <-. split; [done|by exists p].
Qed.

(** Once the handshake of [w] is done, nothing the server does changes the
    nickname of [w]: not its own lines, not the handshakes of others under
    whatever nickname, not the end of its handler. *)
Theorem nickname_is_kept (σ σ' : World) (acts : list action) (w : Writer) (p : pc) :
  exec σ acts = Some σ' →
  handlers σ !! w = Some p → p ≠ AwaitNickname →
  nickname σ' !! w = nickname σ !! w.
Proof.
  revert σ p. induction acts as [|a acts IH]; intros σ p Hexec Hw Hp;
    simpl in Hexec.
  - by injection Hexec as <-.
  - destruct (act σ a) as [σ1|] eqn:Hact; [|done]. simpl in Hexec.
    destruct (act_past_handshake σ a σ1 w p Hact Hw Hp)
      as (Hn & p' & Hw' & Hp').
    rewrite <-Hn. by apply (IH σ1 p').
Qed.

Lemma nickname_is_kept_witness :
  nickname (world_of (two_clients ++ connect (3, bob_line)
                      ++ [Deliver 1 (Line (py "carol" ++ [LF]))])) !! 1
  = nickname (world_of two_clients) !! 1.
Proof.
  apply (nickname_is_kept (world_of two_clients) _
           (connect (3, bob_line) ++ [Deliver 1 (Line (py "carol" ++ [LF]))])
           1 AwaitLine).
  - vm_compute. reflexivity.
  - vm_compute. reflexivity.
  - discriminate.
Defined.

(** ** Adding and removing, one after the other *)


(** ** After [drain] *)

(** When [drain] returns for a registered session: if its writer is not
    closing the handler goes back to reading, and nothing else has changed;
    if it is closing the handler leaves the loop without a word, nothing is
    written to anyone, no quit is announced, and once [wait_closed] returns
    the session is out of the registry. *)
Theorem after_drain_leaves_silently (σ : World) (w : Writer) :
  handlers σ !! w = Some AwaitDrain →
  w ∈ connection_pool σ →
  (w ∉ closing σ → step σ w Resumed = Some (set_pc w AwaitLine σ))
  ∧ (w ∈ closing σ →
     ∃ σ1 σ2,
       step σ w Resumed = Some σ1
       ∧ handlers σ1 !! w = Some AwaitClosed
       ∧ step σ1 w Resumed = Some σ2
       ∧ handlers σ2 !! w = Some Finished
       ∧ connection_pool σ2 = connection_pool σ ∖ {[w]}
       ∧ written σ2 = written σ).
Proof.
  intros Hpc Hin. split; intros Hcl.
  - erewrite step_eq; [|done|reflexivity]. f_equal. apply run_return.
    unfold after_drain. rewrite bind_eq. simpl.
    by rewrite bool_decide_eq_false_2.
  - exists (set_pc w AwaitClosed (close w σ).2).
    eexists. split_and!.
    + erewrite step_eq; [|done|reflexivity]. f_equal. apply run_return.
      unfold after_drain. rewrite bind_eq. simpl.
      by rewrite bool_decide_eq_true_2.
    + simpl. apply lookup_insert_eq.
    + apply step_closed; [simpl; apply lookup_insert_eq|done].
    + simpl. apply lookup_insert_eq.
    + done.
    + done.
Qed.

Lemma after_drain_leaves_silently_witness :
  (1 ∉ closing (world_of (two_clients
                  ++ [Deliver 1 (Line (py "hi" ++ [LF])); Lost 1])) →
   step (world_of (two_clients
                  ++ [Deliver 1 (Line (py "hi" ++ [LF])); Lost 1])) 1 Resumed
   = Some (set_pc 1 AwaitLine
             (world_of (two_clients
                  ++ [Deliver 1 (Line (py "hi" ++ [LF])); Lost 1]))))
  ∧ (1 ∈ closing (world_of (two_clients
                  ++ [Deliver 1 (Line (py "hi" ++ [LF])); Lost 1])) →
     ∃ σ1 σ2,
       step (world_of (two_clients
                  ++ [Deliver 1 (Line (py "hi" ++ [LF])); Lost 1])) 1 Resumed
       = Some σ1
       ∧ handlers σ1 !! 1 = Some AwaitClosed
       ∧ step σ1 1 Resumed = Some σ2
       ∧ handlers σ2 !! 1 = Some Finished
       ∧ connection_pool σ2
         = connection_pool (world_of (two_clients
                  ++ [Deliver 1 (Line (py "hi" ++ [LF])); Lost 1])) ∖ {[1]}
       ∧ written σ2
         = written (world_of (two_clients
                  ++ [Deliver 1 (Line (py "hi" ++ [LF])); Lost 1]))).
Proof.
  apply (after_drain_leaves_silently
           (world_of (two_clients
                      ++ [Deliver 1 (Line (py "hi" ++ [LF])); Lost 1])) 1).
  - vm_compute. reflexivity.
  - vm_compute. reflexivity.
Defined.

(** ** The arrival of a client *)

Lemma step_handshake_sound σ w text :
  handlers σ !! w = Some AwaitNickname →
  w ∉ broken σ → others_sound σ w →
  step σ w (Line text) = Some (joined σ w (strip text)).
Proof.
  intros Hpc Hw Hok.
  erewrite step_eq; [|done|reflexivity]. f_equal. apply run_return.
  rewrite bind_eq, handshake_eq, bind_eq.
  rewrite (send_welcome_message_ok _ _ (strip text));
    [|simpl; apply lookup_insert_eq|done].
  change (deliver [w] _ (registered σ w (strip text)))
    with (welcomed σ w (strip text)).
  rewrite (broadcast_user_join_ok _ _ (strip text)); [done| |].
  - unfold welcomed. rewrite deliver_nickname. simpl. apply lookup_insert_eq.
  - intros u Hu Hne. rewrite welcomed_broken. apply Hok; [|done].
    rewrite welcomed_pool in Hu.
    by apply elem_of_union in Hu as [Hu|Hu%elem_of_singleton].
Qed.

(** When a client completes the handshake, its writer not being a member
    yet and no [write] to it or to a member raising: it becomes a member and
    its handler enters the loop; it is written its welcome, which counts the
    members there were before it, and nothing else; each of those members is
    written the announcement of its arrival once; nobody else is written
    anything. *)
Theorem arrival_is_announced (σ : World) (w : Writer) (text : str) :
  handlers σ !! w = Some AwaitNickname →
  w ∉ connection_pool σ →
  w ∉ broken σ → others_sound σ w →
  ∃ σ', step σ w (Line text) = Some σ'
    ∧ handlers σ' !! w = Some AwaitLine
    ∧ connection_pool σ' = connection_pool σ ∪ {[w]}
    ∧ outbox σ' w
      = outbox σ w
        ++ [welcome_message (strip text) (Z.of_nat (size (connection_pool σ)))]
    ∧ (∀ u, u ∈ connection_pool σ →
         outbox σ' u = outbox σ u ++ [chunk (join_message (strip text))])
    ∧ (∀ u, u ∉ connection_pool σ → u ≠ w → outbox σ' u = outbox σ u).
Proof.
  intros Hpc Hout Hw Hok.
  assert (others_sound (welcomed σ w (strip text)) w) as Hok'.
  { intros u Hu Hne. rewrite welcomed_broken. apply Hok; [|done].
    rewrite welcomed_pool in Hu.
    by apply elem_of_union in Hu as [Hu|Hu%elem_of_singleton]. }
  assert (∀ u, outbox (joined σ w (strip text)) u
               = outbox σ u
                 ++ (if decide (u = w)
                     then [welcome_message (strip text)
                             (Z.of_nat (size (connection_pool σ ∪ {[w]})) - 1)]
                     else [])
                 ++ (if decide (u ∈ connection_pool σ ∪ {[w]} ∧ u ≠ w)
                     then [chunk (join_message (strip text))] else []))
    as Houtbox.
  { intros u. unfold joined. rewrite outbox_set_pc, outbox_broadcast by done.
    rewrite outbox_welcomed, welcomed_pool by done. by rewrite <-app_assoc. }
  exists (joined σ w (strip text)). split_and!.
  - by apply step_handshake_sound.
  - simpl. apply lookup_insert_eq.
  - simpl. by rewrite deliver_pool, welcomed_pool.
  - rewrite Houtbox, decide_True by done.
    rewrite decide_False by (by intros [_ []]). rewrite app_nil_r.
    rewrite size_union by (by apply disjoint_singleton_r).
    rewrite size_singleton. do 3 f_equal. lia.
  - intros u Hu. rewrite Houtbox.
    rewrite decide_False by (by intros ->).
    rewrite decide_True; [done|].
    split; [by apply elem_of_union_l|by intros ->].
  - intros u Hu Hne. rewrite Houtbox, decide_False by done.
    rewrite decide_False; [by rewrite !app_nil_r|].
    by intros [[?|?%elem_of_singleton]%elem_of_union _].
Qed.

Lemma arrival_is_announced_witness :
  ∃ σ', step (world_of (two_clients ++ [Accept 3])) 3 (Line carol_line) = Some σ'
    ∧ handlers σ' !! 3 = Some AwaitLine
    ∧ connection_pool σ'
      = connection_pool (world_of (two_clients ++ [Accept 3])) ∪ {[3]}
    ∧ outbox σ' 3
      = outbox (world_of (two_clients ++ [Accept 3])) 3
        ++ [welcome_message (strip carol_line)
              (Z.of_nat (size (connection_pool
                                 (world_of (two_clients ++ [Accept 3])))))]
    ∧ (∀ u, u ∈ connection_pool (world_of (two_clients ++ [Accept 3])) →
         outbox σ' u
         = outbox (world_of (two_clients ++ [Accept 3])) u
           ++ [chunk (join_message (strip carol_line))])
    ∧ (∀ u, u ∉ connection_pool (world_of (two_clients ++ [Accept 3])) →
         u ≠ 3 →
         outbox σ' u = outbox (world_of (two_clients ++ [Accept 3])) u).
Proof.
  apply (arrival_is_announced (world_of (two_clients ++ [Accept 3])) 3 carol_line).
  - vm_compute. reflexivity.
  - vm_compute. intros H. discriminate H.
  - vm_compute. intros H. discriminate H.
  - apply others_sound_empty. vm_compute. reflexivity.
Defined.

(** ** What [strip] leaves *)

Lemma lstrip_id (s : str) :
  (∀ c, head s = Some c → isspace c = false) → lstrip s = s.
Proof.
  destruct s as [|c s]; [done|]. intros H. simpl.
  by rewrite (H c eq_refl).
Qed.

Lemma rstrip_id (s : str) :
  (∀ c, last s = Some c → isspace c = false) → rstrip s = s.
Proof.
  intros H. unfold rstrip. rewrite lstrip_id.
  - apply reverse_involutive.
  - intros c. rewrite head_reverse. apply H.
Qed.

Lemma only_newline_is_last (x y z : str) :
  LF ∉ x → y ++ LF :: z = x ++ [LF] → z = [].
Proof.
  intros Hx Heq. destruct z as [|c z] using rev_ind; [done|].
  exfalso. apply Hx.
  change (y ++ LF :: z ++ [c]) with (y ++ (LF :: z) ++ [c]) in Heq.
  rewrite app_assoc in Heq. apply app_inj_tail in Heq as [<- _].
  apply elem_of_app. right. left.
Qed.

(** What [strip] returns is a part of its argument that neither starts nor
    ends with whitespace, so that stripping it again changes nothing; and
    for a line as [readuntil] returns it, with its only newline at the end,
    what is stripped has no newline in it: neither a nickname nor a chat
    message spans lines. *)
Theorem strip_of_a_line (s body : str) :
  strip (strip s) = strip s
  ∧ (∀ c, c ∈ strip s → c ∈ s)
  ∧ (LF ∉ body → LF ∉ strip (body ++ [LF])).
Proof.
  destruct (strip_spec s) as (l & r & Hs & _ & _ & Hhead & Hlast).
  split_and!.
  - unfold strip at 1. rewrite lstrip_id by done. by apply rstrip_id.
  - intros c Hc. rewrite Hs. apply elem_of_app. right.
    apply elem_of_app. by left.
  - intros Hbody Hin.
    destruct (strip_spec (body ++ [LF])) as (l' & r' & Hs' & _ & _ & _ & Hlast').
    apply list_elem_of_split in Hin as (a & b & Hab).
    rewrite Hab in Hs'. rewrite <-!app_assoc in Hs'. simpl in Hs'.
    rewrite app_assoc in Hs'. symmetry in Hs'.
    apply only_newline_is_last in Hs'; [|done].
    apply app_eq_nil in Hs' as [-> _].
    assert (isspace LF = false) as Hsp; [|done].
    apply Hlast'. rewrite Hab. by rewrite last_app.
Qed.

(** ** A client that hangs up before it gave a nickname *)

(** The first [readuntil] is outside the [try]: when it fails, by end of
    stream or otherwise, the handler ends there.  From a world the server
    can reach, nothing is written to anyone at that moment, and whatever
    happens later the writer is never a member, is never written to again
    and never gets a nickname it did not have. *)
Theorem hang_up_before_nickname (σ σ' : World) (w : Writer) (o : outcome)
    (acts : list action) :
  reachable σ →
  handlers σ !! w = Some AwaitNickname →
  o = IncompleteRead ∨ o = Failed →
  exec σ (Deliver w o :: acts) = Some σ' →
  (∃ e, act σ (Deliver w o) = Some (set_pc w (Crashed e) σ)
        ∧ handlers σ' !! w = Some (Crashed e))
  ∧ (w ∉ connection_pool σ')
  ∧ outbox σ' w = outbox σ w
  ∧ nickname σ' !! w = nickname σ !! w.
Proof.
  intros (Hco & _ & _)%reachable_sane Hpc Ho Hexec.
  specialize (Hco w). rewrite Hpc in Hco.
  assert (∃ e, act σ (Deliver w o) = Some (set_pc w (Crashed e) σ)) as [e Hact].
  { destruct Ho as [-> | ->]; eexists; simpl;
      (erewrite step_eq; [|done|reflexivity]); reflexivity. }
  simpl in Hexec. simpl in Hact. rewrite Hact in Hexec. simpl in Hexec.
  destruct (exec_over (set_pc w (Crashed e) σ) σ' acts w (Crashed e) Hexec)
    as (Hw' & Hp' & Hn' & Ho').
  { simpl. apply lookup_insert_eq. }
  { right. by eexists. }
  split_and!.
  - exists e. by split.
  - by rewrite Hp'.
  - by rewrite Ho'.
  - by rewrite Hn'.
Qed.

Lemma hang_up_before_nickname_witness :
  (∃ e, act (world_of (two_clients ++ [Accept 3])) (Deliver 3 IncompleteRead)
        = Some (set_pc 3 (Crashed e) (world_of (two_clients ++ [Accept 3])))
        ∧ handlers (world_of (two_clients
                      ++ [Accept 3; Deliver 3 IncompleteRead;
                          Deliver 1 (Line (py "hi" ++ [LF]))])) !! 3
          = Some (Crashed e))
  ∧ (3 ∉ connection_pool (world_of (two_clients
                      ++ [Accept 3; Deliver 3 IncompleteRead;
                          Deliver 1 (Line (py "hi" ++ [LF]))])))
  ∧ outbox (world_of (two_clients
                      ++ [Accept 3; Deliver 3 IncompleteRead;
                          Deliver 1 (Line (py "hi" ++ [LF]))])) 3
    = outbox (world_of (two_clients ++ [Accept 3])) 3
  ∧ nickname (world_of (two_clients
                      ++ [Accept 3; Deliver 3 IncompleteRead;
                          Deliver 1 (Line (py "hi" ++ [LF]))])) !! 3
    = nickname (world_of (two_clients ++ [Accept 3])) !! 3.
Proof.
  apply (hang_up_before_nickname (world_of (two_clients ++ [Accept 3])) _ 3
           IncompleteRead [Deliver 1 (Line (py "hi" ++ [LF]))]).
  - exists (two_clients ++ [Accept 3]). vm_compute. reflexivity.
  - vm_compute. reflexivity.
  - by left.
  - vm_compute. reflexivity.
Defined.

(** ** Where the registry changes *)

(** The registry changes at two places only: the handshake adds the writer
    whose handshake it is, and the last statement of [handle_connection]
    removes the writer whose handler it is.  Every other action leaves the
    registry as it was. *)
Theorem registry_changes_at_both_ends (σ σ' : World) (a : action) :
  act σ a = Some σ' →
  connection_pool σ' = connection_pool σ
  ∨ (∃ w text, a = Deliver w (Line text)
       ∧ handlers σ !! w = Some AwaitNickname
       ∧ connection_pool σ' = connection_pool σ ∪ {[w]})
  ∨ (∃ w, a = Deliver w Resumed
       ∧ handlers σ !! w = Some AwaitClosed
       ∧ connection_pool σ' = connection_pool σ ∖ {[w]}).
Proof.
  intros Hact. destruct a as [w|w o|w|w]; simpl in Hact.
  - destruct (handlers σ !! w); [done|]. injection Hact as <-. left.
    destruct (run_fields w (prompt w ;; ret AwaitNickname) σ) as [-> _].
    by destruct (writes_only_bind (prompt w) (λ _, ret AwaitNickname)
                   (writes_only_write _ _) (λ _, writes_only_ret _) σ)
      as (-> & _).
  - unfold step in Hact.
    destruct (handlers σ !! w) as [p|] eqn:Hpc; [|done]. simpl in Hact.
    destruct (segment w p o) as [m|] eqn:Hm; [|done]. injection Hact as <-.
    destruct (run_fields w m σ) as [-> _].
    assert (∀ r, connection_pool
                   ((c ← on_read w r;
                     match c with Break => leave w | Drain => ret AwaitDrain end) σ).2
                 = connection_pool σ) as Hloop.
    { intros r. destruct (writes_only_on_read w r σ) as (Hp & _).
      rewrite bind_eq. by destruct (on_read w r σ) as [[[]|e] σ1]. }
    destruct p, o; unfold segment in Hm; try discriminate Hm;
      injection Hm as <-; try (by left).
    + right. left. exists w, text. split_and!; [done|done|].
      destruct (handshake_registers w text σ) as [Hp _].
      rewrite bind_eq. by destruct (handshake w text σ) as [[[]|e] σ1].
    + left. apply (Hloop (Data text)).
    + left. apply (Hloop Incomplete).
    + left. unfold after_drain. rewrite bind_eq. simpl. by case_bool_decide.
    + unfold after_closed, remove_user_from_pool. rewrite !bind_eq. simpl.
      case_decide; [|by left].
      right. right. by exists w.
  - injection Hact as <-. by left.
  - injection Hact as <-. by left.
Qed.

Lemma registry_changes_at_both_ends_witness :
  connection_pool (world_of (two_clients ++ [Accept 3; Deliver 3 (Line carol_line)]))
  = connection_pool (world_of (two_clients ++ [Accept 3]))
  ∨ (∃ w text, Deliver 3 (Line carol_line) = Deliver w (Line text)
       ∧ handlers (world_of (two_clients ++ [Accept 3])) !! w = Some AwaitNickname
       ∧ connection_pool (world_of (two_clients
                            ++ [Accept 3; Deliver 3 (Line carol_line)]))
         = connection_pool (world_of (two_clients ++ [Accept 3])) ∪ {[w]})
  ∨ (∃ w, Deliver 3 (Line carol_line) = Deliver w Resumed
       ∧ handlers (world_of (two_clients ++ [Accept 3])) !! w = Some AwaitClosed
       ∧ connection_pool (world_of (two_clients
                            ++ [Accept 3; Deliver 3 (Line carol_line)]))
         = connection_pool (world_of (two_clients ++ [Accept 3])) ∖ {[w]}).
Proof.
  apply (registry_changes_at_both_ends (world_of (two_clients ++ [Accept 3]))).
  vm_compute. reflexivity.
Defined.

(** ** A whole session *)








(** ** The count in the welcome *)

(** [send_welcome_message] counts the registry less one.  For a writer that
    is a member this is the number of the other members; for a writer that
    is not, it is one short of the number of members, and for an empty
    registry the welcome says [-1]. *)
Theorem welcome_count (σ : World) (w : Writer) (nick : str) :
  nickname σ !! w = Some nick →
  w ∉ broken σ →
  ∃ count : Z,
    send_welcome_message w σ
    = (Return tt, deliver [w] (welcome_message nick count) σ)
    ∧ (w ∈ connection_pool σ →
       count = Z.of_nat (size (connection_pool σ ∖ {[w]})))
    ∧ (w ∉ connection_pool σ →
       count = (Z.of_nat (size (connection_pool σ)) - 1)%Z)
    ∧ (connection_pool σ = ∅ → str_of_int count = py "-1").
Proof.
  intros Hn Hw. exists (Z.of_nat (size (connection_pool σ)) - 1)%Z.
  split_and!.
  - by apply send_welcome_message_ok.
  - intros Hin.
    rewrite size_difference by (by apply singleton_subseteq_l).
    rewrite size_singleton.
    assert (size (connection_pool σ) ≠ 0); [|lia].
    intros H0%size_empty_inv.
    apply (not_elem_of_empty (C := gset Writer) w). by apply H0.
  - done.
  - intros ->. by rewrite size_empty.
Qed.

Lemma welcome_count_witness :
  ∃ count : Z,
    send_welcome_message 2 (world_of two_clients)
    = (Return tt,
       deliver [2] (welcome_message (py "alice") count) (world_of two_clients))
    ∧ (2 ∈ connection_pool (world_of two_clients) →
       count = Z.of_nat (size (connection_pool (world_of two_clients) ∖ {[2]})))
    ∧ (2 ∉ connection_pool (world_of two_clients) →
       count = (Z.of_nat (size (connection_pool (world_of two_clients))) - 1)%Z)
    ∧ (connection_pool (world_of two_clients) = ∅ → str_of_int count = py "-1").
Proof.
  apply (welcome_count (world_of two_clients) 2 (py "alice")).
  - vm_compute. reflexivity.
  - vm_compute. intros H. discriminate H.
Defined.

(** ** One broadcast after another *)

(** Two broadcasts, one after the other, in a world where no [write] to a
    member raises: every member is written the first message, unless it
    sent it, and then the second, unless it sent that one; what a writer
    reads keeps the order in which the messages were broadcast. *)
Theorem broadcasts_keep_their_order (σ : World) (w1 w2 u : Writer)
    (m1 m2 : str) :
  (∀ v, v ∈ connection_pool σ → v ∉ broken σ) →
  u ∈ connection_pool σ →
  (broadcast w1 m1 ;; broadcast w2 m2) σ
  = (Return tt,
     deliver (recipients σ w2) (chunk m2) (deliver (recipients σ w1) (chunk m1) σ))
  ∧ outbox (deliver (recipients σ w2) (chunk m2)
              (deliver (recipients σ w1) (chunk m1) σ)) u
    = outbox σ u
      ++ (if decide (u = w1) then [] else [chunk m1])
      ++ (if decide (u = w2) then [] else [chunk m2]).
Proof.
  intros Hok Hu.
  set (σ1 := deliver (recipients σ w1) (chunk m1) σ).
  assert (∀ w, others_sound σ w) as Hs by (intros w v Hv _; by apply Hok).
  assert (connection_pool σ1 = connection_pool σ) as Hp1
    by apply deliver_pool.
  assert (recipients σ1 w2 = recipients σ w2) as Hr
    by (unfold recipients; by rewrite Hp1).
  assert (others_sound σ1 w2) as Hs1.
  { intros v Hv _. unfold σ1. rewrite deliver_broken. apply Hok.
    by rewrite <-Hp1. }
  split.
  - rewrite bind_eq, broadcast_ok by apply Hs. fold (chunk m1). fold σ1.
    rewrite broadcast_ok by done. by rewrite Hr.
  - rewrite <-Hr, outbox_broadcast by done.
    unfold σ1. rewrite outbox_broadcast by apply Hs. fold σ1. rewrite Hp1.
    rewrite <-app_assoc. f_equal.
    repeat case_decide; try done; exfalso; tauto.
Qed.

Lemma broadcasts_keep_their_order_witness :
  (broadcast 1 (py "hi") ;; broadcast 2 (py "ho")) (world_of three_clients)
  = (Return tt,
     deliver (recipients (world_of three_clients) 2) (chunk (py "ho"))
       (deliver (recipients (world_of three_clients) 1) (chunk (py "hi"))
          (world_of three_clients)))
  ∧ outbox (deliver (recipients (world_of three_clients) 2) (chunk (py "ho"))
              (deliver (recipients (world_of three_clients) 1) (chunk (py "hi"))
                 (world_of three_clients))) 3
    = outbox (world_of three_clients) 3
      ++ (if decide (3 = 1) then [] else [chunk (py "hi")])
      ++ (if decide (3 = 2) then [] else [chunk (py "ho")]).
Proof.
  apply (broadcasts_keep_their_order (world_of three_clients) 1 2 3
           (py "hi") (py "ho")).
  - intros v _. assert (broken (world_of three_clients) = ∅) as ->
      by (vm_compute; reflexivity).
    apply not_elem_of_empty.
  - vm_compute. reflexivity.
Defined.
